(** * TikTok scanner content script: a shallow embedding and its properties

    The development follows the content script of [src/extension/popup.js]
    (the second document of that file, lines 70-345): the text and
    visibility filters, the frame classifier adapter, the dedup store, the
    per-candidate pipeline and the scan loop with its message interface.

    Conventions of the embedding:
    - a JavaScript string is the list of its UTF-16 code units;
    - a JavaScript number is a rational (every finite double is one, and
      the code only compares numbers and takes maxima);
    - the script's global [STATE] object, the storage slot, the armed
      timers and the suspended [async] frames form one [World] value that
      is threaded through every operation;
    - what the script reads from the page (geometry, extracted text, the
      classifier's answer) is carried by the [Video] and [Env] records;
    - an [async] function is cut at its [await]s: the part before the
      first suspension is one definition, each continuation another, and
      the event loop resumes suspended frames one at a time. *)

From Stdlib Require Import QArith String Ascii.
From stdpp Require Import gmap list.

Local Open Scope N_scope.

(** ** JavaScript values *)

Abbreviation jsstring := (list N).

(** An ASCII literal as a sequence of code units. *)
Definition js (s : string) : jsstring :=
  map N_of_ascii (list_ascii_of_string s).

Definition jsstring_eqb (a b : jsstring) : bool := bool_decide (a = b).

(** Truthiness of a string: only the empty string is falsy. *)
Definition truthy (s : jsstring) : bool :=
  match s with [] => false | _ :: _ => true end.

(** [a || b] on strings. *)
Definition or_else (a b : jsstring) : jsstring := if truthy a then a else b.

Definition Qltb (a b : Q) : bool := negb (Qle_bool b a).

(** [a || b] on numbers: zero is falsy. *)
Definition num_or (a b : Q) : Q := if Qeq_bool a 0 then b else a.

(** [Math.max] on two numbers; it returns one of its arguments. *)
Definition Math_max (a b : Q) : Q := if Qle_bool a b then b else a.

(** The outcome of a call that may throw. *)
Inductive outcome (A : Type) : Type :=
| Returns (a : A)
| Throws.
Arguments Returns {A} a.
Arguments Throws {A}.

(** ** Text filter (line 93) *)

Definition in_range (lo hi c : N) : bool := (lo <=? c) && (c <=? hi).

(** The character class of the test: the three ranges U+0600-U+06FF,
    U+0750-U+077F and U+08A0-U+08FF. *)
Definition arabic_class (c : N) : bool :=
  in_range 0x0600 0x06FF c || in_range 0x0750 0x077F c || in_range 0x08A0 0x08FF c.

(** [RegExp.prototype.test] for a single character class without flags:
    some code unit of the subject belongs to the class. *)
Definition regex_test_class (cls : N -> bool) (s : jsstring) : bool :=
  existsb cls s.

(** [isArabic(text)]; [None] stands for an absent ([undefined] or [null])
    argument, which [text || ''] turns into the empty string. *)
Definition isArabic (text : option jsstring) : bool :=
  regex_test_class arabic_class (default [] text).

(** The code points of a string, as [String.prototype.codePointAt] reads
    them: a high surrogate followed by a low surrogate is one code point,
    every other code unit stands for itself. *)
Definition is_high_surrogate (c : N) : bool := in_range 0xD800 0xDBFF c.
Definition is_low_surrogate (c : N) : bool := in_range 0xDC00 0xDFFF c.

Fixpoint codePoints (s : jsstring) : list N :=
  match s with
  | [] => []
  | c :: rest =>
      match rest with
      | d :: rest' =>
          if is_high_surrogate c && is_low_surrogate d
          then (0x10000 + (c - 0xD800) * 0x400 + (d - 0xDC00)) :: codePoints rest'
          else c :: codePoints rest
      | [] => [c]
      end
  end.

(** ** Visibility filter (lines 95-107) *)

Record DOMRect : Type := mkDOMRect {
  rect_top : Q;
  rect_bottom : Q;
  rect_left : Q;
  rect_right : Q;
  rect_width : Q;
  rect_height : Q
}.

Record Viewport : Type := mkViewport {
  innerHeight : Q;
  innerWidth : Q;
  clientHeight : Q;   (* document.documentElement.clientHeight *)
  clientWidth : Q     (* document.documentElement.clientWidth *)
}.

Definition viewport_height (win : Viewport) : Q :=
  num_or (innerHeight win) (clientHeight win).

Definition viewport_width (win : Viewport) : Q :=
  num_or (innerWidth win) (clientWidth win).

(** [isElementInViewport], on the rectangle [el.getBoundingClientRect()]
    returns. *)
Definition isElementInViewport (win : Viewport) (rect : DOMRect) : bool :=
  let vh := viewport_height win in
  let vw := viewport_width win in
  Qltb 0 (rect_width rect) &&
  Qltb 0 (rect_height rect) &&
  Qltb (rect_top rect) vh &&
  Qltb 0 (rect_bottom rect) &&
  Qltb (rect_left rect) vw &&
  Qltb 0 (rect_right rect).

(** ** Data model *)

(** A persisted match (lines 262-269). *)
Record MatchRecord : Type := mkMatchRecord {
  url : jsstring;
  description : jsstring;
  prob : Q;
  collectedAt : jsstring;
  page : jsstring;
  poster : option jsstring   (* [None] is [null] *)
}.

(** One face-api detection, as far as the script reads it. *)
Record Detection : Type := mkDetection {
  gender : jsstring;
  genderProbability : Q
}.

(** The result object of [detectFemaleOnFrame]. *)
Record Verdict : Type := mkVerdict {
  isFemale : bool;
  verdict_prob : Q
}.

(** What the script can observe of one element handed to [processVideo]. *)
Record Video : Type := mkVideo {
  isHTMLVideoElement : bool;          (* video instanceof HTMLVideoElement *)
  currentSrc : jsstring;
  src : jsstring;
  dataset_scanKey : option jsstring;  (* video.dataset.scanKey *)
  boundingClientRect : DOMRect;       (* video.getBoundingClientRect() *)
  extractedDescription : outcome jsstring; (* extractDescriptionForVideo(video) *)
  foundVideoUrl : outcome jsstring;   (* findVideoUrl(video) *)
  videoWidth : N;
  videoHeight : N;
  video_poster : jsstring;            (* video.poster *)
  canvasContext : bool;               (* canvas.getContext('2d', ...) is not null *)
  drawImage_ok : bool;                (* ctx.drawImage(video, ...) does not throw *)
  detectAllFaces : outcome (option (list Detection))
    (* what the classifier answers for the captured frame: it rejects, or
       resolves to [null] ([None]) or to an array of detections *)
}.

(** The surroundings at the time a piece of the script runs. *)
Record Env : Type := mkEnv {
  viewport : Viewport;
  location_href : jsstring;
  Date_toISOString : jsstring;        (* new Date().toISOString() *)
  Math_random_key : jsstring;         (* Math.random().toString(36).slice(2) *)
  window_faceapi : bool;              (* window.faceapi is defined *)
  storage_alive : bool;               (* chrome.storage.local calls do not throw *)
  getURL_ok : bool;                   (* script element can be built and appended *)
  document_videos : list Video        (* document.querySelectorAll('video') *)
}.

(** The [CONFIG] object (lines 87-91).  The literal [0.7] denotes the
    double nearest to 7/10, which is 3152519739159347 / 2^52. *)
Definition scanIntervalMs : N := 3500.
Definition femaleProbThreshold : Q := 3152519739159347 # 4503599627370496.

(** The [STATE] object (lines 80-85). *)
Record STATE_t : Type := mkSTATE {
  scanning : bool;
  intervalId : option nat;            (* [None] is [null] *)
  faceApiReady : bool;
  processing : gset jsstring
}.

Inductive LogEntry : Type :=
| LogFaceApiLoaded
| LogModelsFailed
| LogInjectFailed
| LogDetectError
| LogSavedMatch (record : MatchRecord)
| LogProcessVideoError
| LogScanOnceError
| LogStarting
| LogCannotStart
| LogStopping.

(** Responses of the message interface (lines 316-335). *)
Inductive Response : Type :=
| StartResponse (ok scanning_now faceApiReady_now : bool)
| StopResponse (ok scanning_now : bool)
| StatusResponse (scanning_now faceApiReady_now : bool)
| ClearResponse (ok : bool)
| MatchesResponse (ok : bool) (matches : list MatchRecord).

(** A [processVideo] activation suspended at one of its two [await]s. *)
Inductive PipelineFrame : Type :=
| AwaitingDetect (key : jsstring) (video : Video) (description : jsstring)
                 (verdict : Verdict)
| AwaitingSave (key : jsstring) (record : MatchRecord).

(** A [startScanning] activation suspended at [await injectFaceApi()],
    waiting for the script element it appended; [respond] tells whether
    the activation came from a [START_SCAN] message. *)
Record StartFrame : Type := mkStartFrame {
  respond : bool
}.

Record World : Type := mkWorld {
  STATE : STATE_t;
  tt_matches : option (list MatchRecord); (* storage slot; [None]: never written *)
  intervals : list nat;               (* identifiers of the armed interval timers *)
  next_interval : nat;                (* identifier the next [setInterval] returns *)
  scripts_injected : nat;             (* script elements appended so far *)
  model_loads : nat;                  (* model loads started so far *)
  classifier_calls : nat;             (* [detectAllFaces] calls so far *)
  scan_passes : nat;                  (* [scanOnce] runs so far *)
  console : list LogEntry;
  responses : list Response;          (* [sendResponse] calls, oldest first *)
  pending_starts : list StartFrame;
  inflight : list PipelineFrame
}.

(** The world when the content script has just been evaluated. *)
Definition initial_STATE : STATE_t :=
  {| scanning := false; intervalId := None; faceApiReady := false;
     processing := ∅ |}.

Definition initial_World : World :=
  {| STATE := initial_STATE; tt_matches := None; intervals := [];
     next_interval := 1%nat; scripts_injected := 0%nat; model_loads := 0%nat;
     classifier_calls := 0%nat; scan_passes := 0%nat; console := [];
     responses := []; pending_starts := []; inflight := [] |}.

(** *** Field updates *)

Definition set_scanning (b : bool) (st : STATE_t) : STATE_t :=
  {| scanning := b; intervalId := intervalId st;
     faceApiReady := faceApiReady st; processing := processing st |}.

Definition set_intervalId (i : option nat) (st : STATE_t) : STATE_t :=
  {| scanning := scanning st; intervalId := i;
     faceApiReady := faceApiReady st; processing := processing st |}.

Definition set_faceApiReady (b : bool) (st : STATE_t) : STATE_t :=
  {| scanning := scanning st; intervalId := intervalId st;
     faceApiReady := b; processing := processing st |}.

Definition set_processing (p : gset jsstring) (st : STATE_t) : STATE_t :=
  {| scanning := scanning st; intervalId := intervalId st;
     faceApiReady := faceApiReady st; processing := p |}.

Definition with_STATE (f : STATE_t -> STATE_t) (w : World) : World :=
  {| STATE := f (STATE w); tt_matches := tt_matches w;
     intervals := intervals w; next_interval := next_interval w;
     scripts_injected := scripts_injected w; model_loads := model_loads w;
     classifier_calls := classifier_calls w; scan_passes := scan_passes w;
     console := console w; responses := responses w;
     pending_starts := pending_starts w; inflight := inflight w |}.

Definition with_tt_matches (m : option (list MatchRecord)) (w : World) : World :=
  {| STATE := STATE w; tt_matches := m;
     intervals := intervals w; next_interval := next_interval w;
     scripts_injected := scripts_injected w; model_loads := model_loads w;
     classifier_calls := classifier_calls w; scan_passes := scan_passes w;
     console := console w; responses := responses w;
     pending_starts := pending_starts w; inflight := inflight w |}.

Definition with_intervals (l : list nat) (n : nat) (w : World) : World :=
  {| STATE := STATE w; tt_matches := tt_matches w;
     intervals := l; next_interval := n;
     scripts_injected := scripts_injected w; model_loads := model_loads w;
     classifier_calls := classifier_calls w; scan_passes := scan_passes w;
     console := console w; responses := responses w;
     pending_starts := pending_starts w; inflight := inflight w |}.

Definition with_scripts_injected (n : nat) (w : World) : World :=
  {| STATE := STATE w; tt_matches := tt_matches w;
     intervals := intervals w; next_interval := next_interval w;
     scripts_injected := n; model_loads := model_loads w;
     classifier_calls := classifier_calls w; scan_passes := scan_passes w;
     console := console w; responses := responses w;
     pending_starts := pending_starts w; inflight := inflight w |}.

Definition with_model_loads (n : nat) (w : World) : World :=
  {| STATE := STATE w; tt_matches := tt_matches w;
     intervals := intervals w; next_interval := next_interval w;
     scripts_injected := scripts_injected w; model_loads := n;
     classifier_calls := classifier_calls w; scan_passes := scan_passes w;
     console := console w; responses := responses w;
     pending_starts := pending_starts w; inflight := inflight w |}.

Definition with_classifier_calls (n : nat) (w : World) : World :=
  {| STATE := STATE w; tt_matches := tt_matches w;
     intervals := intervals w; next_interval := next_interval w;
     scripts_injected := scripts_injected w; model_loads := model_loads w;
     classifier_calls := n; scan_passes := scan_passes w;
     console := console w; responses := responses w;
     pending_starts := pending_starts w; inflight := inflight w |}.

Definition with_scan_passes (n : nat) (w : World) : World :=
  {| STATE := STATE w; tt_matches := tt_matches w;
     intervals := intervals w; next_interval := next_interval w;
     scripts_injected := scripts_injected w; model_loads := model_loads w;
     classifier_calls := classifier_calls w; scan_passes := n;
     console := console w; responses := responses w;
     pending_starts := pending_starts w; inflight := inflight w |}.

Definition with_console (l : list LogEntry) (w : World) : World :=
  {| STATE := STATE w; tt_matches := tt_matches w;
     intervals := intervals w; next_interval := next_interval w;
     scripts_injected := scripts_injected w; model_loads := model_loads w;
     classifier_calls := classifier_calls w; scan_passes := scan_passes w;
     console := l; responses := responses w;
     pending_starts := pending_starts w; inflight := inflight w |}.

Definition with_responses (l : list Response) (w : World) : World :=
  {| STATE := STATE w; tt_matches := tt_matches w;
     intervals := intervals w; next_interval := next_interval w;
     scripts_injected := scripts_injected w; model_loads := model_loads w;
     classifier_calls := classifier_calls w; scan_passes := scan_passes w;
     console := console w; responses := l;
     pending_starts := pending_starts w; inflight := inflight w |}.

Definition with_pending_starts (l : list StartFrame) (w : World) : World :=
  {| STATE := STATE w; tt_matches := tt_matches w;
     intervals := intervals w; next_interval := next_interval w;
     scripts_injected := scripts_injected w; model_loads := model_loads w;
     classifier_calls := classifier_calls w; scan_passes := scan_passes w;
     console := console w; responses := responses w;
     pending_starts := l; inflight := inflight w |}.

Definition with_inflight (l : list PipelineFrame) (w : World) : World :=
  {| STATE := STATE w; tt_matches := tt_matches w;
     intervals := intervals w; next_interval := next_interval w;
     scripts_injected := scripts_injected w; model_loads := model_loads w;
     classifier_calls := classifier_calls w; scan_passes := scan_passes w;
     console := console w; responses := responses w;
     pending_starts := pending_starts w; inflight := l |}.

Definition log (e : LogEntry) (w : World) : World :=
  with_console (console w ++ [e]) w.

Definition sendResponse (r : Response) (w : World) : World :=
  with_responses (responses w ++ [r]) w.

(** ** Statements that may throw: state passing with an outcome *)

Definition M (A : Type) : Type := World -> World * outcome A.

Definition ret {A : Type} (a : A) : M A := fun w => (w, Returns a).

Definition throw {A : Type} : M A := fun w => (w, Throws).

Definition bind {A B : Type} (m : M A) (f : A -> M B) : M B :=
  fun w =>
    match m w with
    | (w', Returns a) => f a w'
    | (w', Throws) => (w', Throws)
    end.

(** [try { body } catch (e) { handler }]. *)
Definition try_catch {A : Type} (body : M A) (handler : M A) : M A :=
  fun w =>
    match body w with
    | (w', Returns a) => (w', Returns a)
    | (w', Throws) => handler w'
    end.

(** A statement that only changes the world. *)
Definition modify (f : World -> World) : M unit := fun w => (f w, Returns tt).

(** Reading from the world. *)
Definition gets {A : Type} (f : World -> A) : M A := fun w => (w, Returns (f w)).

(** Using the result of a call that may throw. *)
Definition call {A : Type} (o : outcome A) : M A := fun w => (w, o).

Declare Scope js_scope.
Delimit Scope js_scope with js_scope.
Notation "x <- m ;; k" := (bind m (fun x => k))
  (at level 100, m at next level, right associativity) : js_scope.
Notation "m ;; k" := (bind m (fun _ => k))
  (at level 100, right associativity) : js_scope.

Local Open Scope js_scope.

(** ** Classifier initialisation (lines 113-146) *)

(** The promise [injectFaceApi()] hands back, as it is when the call
    returns. *)
Inductive InjectPromise : Type :=
| ResolvedTrue      (* [STATE.faceApiReady] was set: [return true] *)
| RejectedAtOnce    (* the executor's [try] block threw: [reject(err)] *)
| PendingOnScript.  (* a script element was appended; [onload]/[onerror] settle it *)

(** The synchronous part of [injectFaceApi]: the readiness test and the
    promise executor. *)
Definition injectFaceApi (env : Env) (w : World) : World * InjectPromise :=
  if faceApiReady (STATE w) then (w, ResolvedTrue)
  else if getURL_ok env
       then (with_scripts_injected (S (scripts_injected w)) w, PendingOnScript)
       else (w, RejectedAtOnce).

(** What happens to an appended script element. *)
Inductive ScriptEvent : Type :=
| ScriptFailsToLoad         (* [onerror] fires *)
| LoadedWithoutFaceApi      (* [onload] fires, [window.faceapi] is missing *)
| DetectorModelFails        (* [tinyFaceDetector.loadFromUri] rejects *)
| AgeGenderModelFails       (* [ageGenderNet.loadFromUri] rejects *)
| ModelsLoaded.             (* both loads resolve *)

(** The [onload] and [onerror] handlers, run up to the point where they
    settle the promise; the result tells whether it was resolved. *)
Definition script_settles (o : ScriptEvent) (w : World) : World * bool :=
  match o with
  | ScriptFailsToLoad => (log LogInjectFailed w, false)
  | LoadedWithoutFaceApi => (log LogModelsFailed w, false)
  | DetectorModelFails | AgeGenderModelFails =>
      (log LogModelsFailed (with_model_loads (S (model_loads w)) w), false)
  | ModelsLoaded =>
      (log LogFaceApiLoaded
         (with_STATE (set_faceApiReady true)
            (with_model_loads (S (model_loads w)) w)), true)
  end.

(** ** Frame classifier adapter (lines 181-216) *)

Definition negative : Verdict := {| isFemale := false; verdict_prob := 0 |}.

(** The body of the loop of lines 206-210, and the loop started with
    [maxProb = 0]. *)
Definition maxProb_step (maxProb : Q) (d : Detection) : Q :=
  if jsstring_eqb (gender d) (js "female")
  then Math_max maxProb (num_or (genderProbability d) 0)
  else maxProb.

Definition maxFemaleProb (detections : list Detection) : Q :=
  fold_left maxProb_step detections 0%Q.

Definition detectFemaleOnFrame (env : Env) (video : Video) : M Verdict :=
  try_catch
    (ready <- gets (fun w => faceApiReady (STATE w)) ;;
     if negb ready || negb (window_faceapi env) then ret negative else
     let w := N.max 1 (videoWidth video) in
     let h := N.max 1 (videoHeight video) in
     if (w <? 2) || (h <? 2) then ret negative else
     if negb (canvasContext video) then ret negative else
     (if drawImage_ok video then ret tt else throw) ;;
     modify (fun w => with_classifier_calls (S (classifier_calls w)) w) ;;
     detections <- call (detectAllFaces video) ;;
     match detections with
     | None => ret negative
     | Some [] => ret negative
     | Some ds =>
         let maxProb := maxFemaleProb ds in
         ret {| isFemale := Qle_bool femaleProbThreshold maxProb;
                verdict_prob := maxProb |}
     end)
    (modify (log LogDetectError) ;; ret negative).

(** ** Dedup store (lines 218-232) *)

(** The predicate handed to [list.some]. *)
Definition same_match (record x : MatchRecord) : bool :=
  jsstring_eqb (url x) (url record)
  || (truthy (description record)
      && jsstring_eqb (description x) (description record)).

(** [saveMatch]: the read of the slot, the test and the write happen in
    one piece (the test and the write are in the same callback; the host
    serialises the accesses to the slot).  A [chrome.storage] call that
    throws inside the promise executor rejects the promise. *)
Definition saveMatch (env : Env) (record : MatchRecord) : M bool :=
  if negb (storage_alive env) then throw else
  fun w =>
    let list := default [] (tt_matches w) in
    let exists_ := existsb (same_match record) list in
    if negb exists_
    then (with_tt_matches (Some (list ++ [record])) w, Returns true)
    else (w, Returns false).

(** ** Per-candidate pipeline (lines 234-277) *)

Definition processing_add (key : jsstring) : M unit :=
  modify (with_STATE (fun st => set_processing ({[key]} ∪ processing st) st)).

Definition processing_delete (key : jsstring) : M unit :=
  modify (with_STATE (fun st => set_processing (processing st ∖ {[key]}) st)).

Definition processing_has (key : jsstring) : M bool :=
  gets (fun w => bool_decide (key ∈ processing (STATE w))).

(** The [catch] block of line 274. *)
Definition processVideo_catch : M (option PipelineFrame) :=
  modify (log LogProcessVideoError) ;; ret None.

Definition video_key (env : Env) (video : Video) : jsstring :=
  or_else (currentSrc video)
    (or_else (src video)
       (or_else (default [] (dataset_scanKey video)) (Math_random_key env))).

(** [processVideo] from its entry to [await detectFemaleOnFrame(video)]
    (lines 235-253).  The result is [None] when the activation is over and
    the suspended frame otherwise.  The frame already carries the verdict:
    [detectFemaleOnFrame] reads [STATE] and the element before its own
    [await], and after it only the classifier's answer, so the verdict is
    fixed when the call is made and merely delivered later. *)
Definition processVideo (env : Env) (video : Video) : M (option PipelineFrame) :=
  try_catch
    (if negb (isHTMLVideoElement video) then ret None else
     let key := video_key env video in
     has <- processing_has key ;;
     if has then ret None else
     processing_add key ;;
     if negb (isElementInViewport (viewport env) (boundingClientRect video))
     then processing_delete key ;; ret None
     else
     description <- call (extractedDescription video) ;;
     if negb (isArabic (Some description))
     then processing_delete key ;; ret None
     else
     verdict <- detectFemaleOnFrame env video ;;
     ret (Some (AwaitingDetect key video description verdict)))
    processVideo_catch.

(** [processVideo] resumed with the classifier's verdict, up to
    [await saveMatch(record)] (lines 253-271). *)
Definition processVideo_after_detect (env : Env) (key : jsstring)
    (video : Video) (description : jsstring) (verdict : Verdict)
    : M (option PipelineFrame) :=
  try_catch
    (if negb (isFemale verdict)
     then processing_delete key ;; ret None
     else
     url <- call (foundVideoUrl video) ;;
     let thumbnail :=
       if truthy (video_poster video) then Some (video_poster video) else None in
     let record :=
       {| url := url; description := description;
          prob := verdict_prob verdict;
          collectedAt := Date_toISOString env;
          page := location_href env;
          poster := thumbnail |} in
     saveMatch env record ;;
     ret (Some (AwaitingSave key record)))
    processVideo_catch.

(** [processVideo] resumed after [saveMatch] (lines 272-273). *)
Definition processVideo_after_save (key : jsstring) (record : MatchRecord)
    : M (option PipelineFrame) :=
  try_catch
    (modify (log (LogSavedMatch record)) ;;
     processing_delete key ;;
     ret None)
    processVideo_catch.

Definition resume (env : Env) (fr : PipelineFrame) : M (option PipelineFrame) :=
  match fr with
  | AwaitingDetect key video description verdict =>
      processVideo_after_detect env key video description verdict
  | AwaitingSave key record => processVideo_after_save key record
  end.

(** One more piece of an activation, if it is suspended. *)
Definition continue_pipeline (env : Env)
    (r : World * outcome (option PipelineFrame))
    : World * outcome (option PipelineFrame) :=
  match r with
  | (w, Returns (Some fr)) => resume env fr w
  | _ => r
  end.

(** [processVideo] run without interruption through both of its
    [await]s. *)
Definition processVideo_to_end (env : Env) (video : Video)
    : M (option PipelineFrame) :=
  fun w => continue_pipeline env (continue_pipeline env (processVideo env video w)).

(** ** Scan loop (lines 279-313) *)

(** Keeping the frame of an activation that suspended. *)
Definition park (r : World * outcome (option PipelineFrame)) : World :=
  match r with
  | (w, Returns (Some fr)) => with_inflight (inflight w ++ [fr]) w
  | (w, _) => w
  end.

(** [scanOnce]: every video's activation runs to its first suspension
    before the next one starts; none is awaited.  The [catch] of line 285
    is never entered: an [async] call does not throw into its caller. *)
Definition scanOnce (env : Env) (w : World) : World :=
  fold_left
    (fun w v => park (processVideo env v w))
    (document_videos env)
    (with_scan_passes (S (scan_passes w)) w).

Definition setInterval (w : World) : World * nat :=
  let id := next_interval w in
  (with_intervals (intervals w ++ [id]) (S id) w, id).

Definition clearInterval (id : nat) (w : World) : World :=
  with_intervals (filter (fun i => i ≠ id) (intervals w)) (next_interval w) w.

(** [startScanning] after [await injectFaceApi()] has settled (lines
    295-302); [loaded] tells whether the promise was resolved.  The
    promise of [scanOnce()] is resolved when the call returns, so
    [await scanOnce()] is not a point where events interleave. *)
Definition startScanning_after_inject (env : Env) (loaded : bool) (w : World)
    : World * bool :=
  if loaded then
    let w1 := with_STATE (set_scanning true) w in
    let w2 := scanOnce env w1 in
    let '(w3, id) := setInterval w2 in
    (with_STATE (set_intervalId (Some id)) w3, true)
  else (log LogCannotStart w, false).

(** [startScanning] up to [await injectFaceApi()] and, when the promise
    is settled already, to its end.  [None] means the activation is
    suspended on a script element. *)
Definition startScanning (env : Env) (w : World) : World * option bool :=
  if scanning (STATE w) then (w, Some true) else
  let w0 := log LogStarting w in
  match injectFaceApi env w0 with
  | (w1, ResolvedTrue) =>
      let '(w2, ok) := startScanning_after_inject env true w1 in (w2, Some ok)
  | (w1, RejectedAtOnce) =>
      let '(w2, ok) := startScanning_after_inject env false w1 in (w2, Some ok)
  | (w1, PendingOnScript) => (w1, None)
  end.

(** [startScanning] when nothing else runs between the injection and the
    moment the script element settles with [o]. *)
Definition startScanning_to_end (env : Env) (o : ScriptEvent) (w : World)
    : World * bool :=
  match startScanning env w with
  | (w1, Some ok) => (w1, ok)
  | (w1, None) =>
      let '(w2, loaded) := script_settles o w1 in
      startScanning_after_inject env loaded w2
  end.

Definition stopScanning (w : World) : World * bool :=
  if negb (scanning (STATE w)) then (w, true) else
  let w1 := log LogStopping w in
  let w2 :=
    match intervalId (STATE w1) with
    | Some (S n) => clearInterval (S n) w1
    | _ => w1
    end in
  (with_STATE
     (fun st => set_processing ∅ (set_scanning false (set_intervalId None st)))
     w2, true).

(** ** Message interface (lines 316-335) *)

Inductive Message : Type :=
| START_SCAN
| STOP_SCAN
| GET_STATUS
| CLEAR_LIST
| GET_MATCHES
| OtherMessage.

Definition startResponse (ok : bool) (w : World) : World :=
  sendResponse
    (StartResponse ok (scanning (STATE w)) (faceApiReady (STATE w))) w.

Definition onMessage (env : Env) (msg : Message) (w : World) : World :=
  match msg with
  | START_SCAN =>
      match startScanning env w with
      | (w1, Some ok) => startResponse ok w1
      | (w1, None) =>
          with_pending_starts (pending_starts w1 ++ [{| respond := true |}]) w1
      end
  | STOP_SCAN =>
      let '(w1, ok) := stopScanning w in
      sendResponse (StopResponse ok (scanning (STATE w1))) w1
  | GET_STATUS =>
      sendResponse
        (StatusResponse (scanning (STATE w)) (faceApiReady (STATE w))) w
  | CLEAR_LIST =>
      if storage_alive env
      then sendResponse (ClearResponse true) (with_tt_matches (Some []) w)
      else w
  | GET_MATCHES =>
      if storage_alive env
      then sendResponse (MatchesResponse true (default [] (tt_matches w))) w
      else w
  | OtherMessage => w
  end.

(** [START_SCAN] handled without interleaving: the response sent once the
    script element has settled with [o]. *)
Definition onMessage_START_SCAN_to_end (env : Env) (o : ScriptEvent)
    (w : World) : World :=
  let '(w1, ok) := startScanning_to_end env o w in startResponse ok w1.

(** ** The event loop *)

Inductive Event : Type :=
| MessageArrives (env : Env) (msg : Message)
| AutoStartFires (env : Env)                  (* the timeout of lines 338-344 *)
| IntervalFires (env : Env) (id : nat)
| ScriptSettles (env : Env) (i : nat) (o : ScriptEvent)
| PipelineResumes (env : Env) (i : nat).

Definition step (e : Event) (w : World) : World :=
  match e with
  | MessageArrives env msg => onMessage env msg w
  | AutoStartFires env =>
      match startScanning env w with
      | (w1, Some _) => w1
      | (w1, None) =>
          with_pending_starts (pending_starts w1 ++ [{| respond := false |}]) w1
      end
  | IntervalFires env id =>
      if bool_decide (id ∈ intervals w) then scanOnce env w else w
  | ScriptSettles env i o =>
      match pending_starts w !! i with
      | None => w
      | Some fr =>
          let w1 := with_pending_starts (delete i (pending_starts w)) w in
          let '(w2, loaded) := script_settles o w1 in
          let '(w3, ok) := startScanning_after_inject env loaded w2 in
          if respond fr then startResponse ok w3 else w3
      end
  | PipelineResumes env i =>
      match inflight w !! i with
      | None => w
      | Some fr =>
          park (resume env fr (with_inflight (delete i (inflight w)) w))
      end
  end.

Definition run (es : list Event) (w : World) : World :=
  fold_left (fun w e => step e w) es w.

(** ** Notions used to state the properties *)

(** A code point of one of the three Arabic blocks. *)
Definition arabic_code_point (c : N) : Prop :=
  (0x0600 <= c <= 0x06FF) \/ (0x0750 <= c <= 0x077F) \/ (0x08A0 <= c <= 0x08FF).

(** The two sample strings of the text filter: the Arabic word
    (U+0645 U+0631 U+062D U+0628 U+0627) and an English one. *)
Definition marhaban : jsstring := [0x0645; 0x0631; 0x062D; 0x0628; 0x0627].
Definition hello : jsstring := js "hello".

(** The box overlaps the viewport and is not degenerate. *)
Definition box_visible (win : Viewport) (rect : DOMRect) : Prop :=
  (0 < rect_width rect /\ 0 < rect_height rect /\
   rect_top rect < viewport_height win /\ 0 < rect_bottom rect /\
   rect_left rect < viewport_width win /\ 0 < rect_right rect)%Q.

(** The list kept in the storage slot. *)
Definition stored (w : World) : list MatchRecord := default [] (tt_matches w).


(** The world after [saveMatch], and the value it resolves to. *)
Definition append (env : Env) (record : MatchRecord) (w : World) : World :=
  fst (saveMatch env record w).

Definition append_result (env : Env) (record : MatchRecord) (w : World)
    : outcome bool :=
  snd (saveMatch env record w).

(** A detection of the target category. *)
Definition is_female (d : Detection) : Prop := gender d = js "female".

(** What every record written by the pipeline satisfies. *)
Definition qualified (r : MatchRecord) : Prop :=
  (femaleProbThreshold <= prob r)%Q /\
  isArabic (Some (description r)) = true /\
  description r <> [].

(** What every suspended pipeline frame satisfies. *)
Definition frame_qualified (fr : PipelineFrame) : Prop :=
  match fr with
  | AwaitingDetect _ _ description verdict =>
      isArabic (Some description) = true /\
      (isFemale verdict = true -> (femaleProbThreshold <= verdict_prob verdict)%Q)
  | AwaitingSave _ record => qualified record
  end.

(** The initialisation a start request attempts does not succeed: the
    classifier is not ready, and either the script element cannot be
    appended or it settles otherwise than with both models loaded. *)
Definition initialisation_fails (env : Env) (o : ScriptEvent) (w : World) : bool :=
  negb (faceApiReady (STATE w)) &&
  (negb (getURL_ok env) ||
   match o with ModelsLoaded => false | _ => true end).

(** The part of the world the pipelines never write: the control fields of
    [STATE], the timers, the injection counters, the responses sent and
    the suspended start requests. *)
Definition control (w : World) :=
  (scanning (STATE w), intervalId (STATE w), faceApiReady (STATE w),
   intervals w, next_interval w, scripts_injected w, model_loads w,
   responses w, pending_starts w).

(** The invariant of the event loop: the store and the suspended frames
    hold qualified records only. *)
Definition store_invariant (w : World) : Prop :=
  Forall qualified (stored w) /\ Forall frame_qualified (inflight w).

(** What classifier initialisation reads and writes: the readiness flag,
    the two counters and the start requests waiting for a script. *)
Definition init_state (w : World) :=
  (faceApiReady (STATE w), scripts_injected w, model_loads w, pending_starts w).


(** ** Sample page used in the examples *)

Definition sample_viewport : Viewport :=
  {| innerHeight := 800; innerWidth := 1200;
     clientHeight := 800; clientWidth := 1200 |}.

Definition sample_rect : DOMRect :=
  {| rect_top := 10; rect_bottom := 110; rect_left := 10; rect_right := 110;
     rect_width := 100; rect_height := 100 |}.

(** The description of the positive scenario (ten code units, Arabic
    letters and one space). *)
Definition sample_description : jsstring :=
  [0x0641; 0x064A; 0x062F; 0x064A; 0x0648; 0x20; 0x0631; 0x0627; 0x0626; 0x0639].

Definition sample_video : Video :=
  {| isHTMLVideoElement := true;
     currentSrc := js "blob:abc";
     src := [];
     dataset_scanKey := None;
     boundingClientRect := sample_rect;
     extractedDescription := Returns sample_description;
     foundVideoUrl := Returns (js "https://www.tiktok.com/@u/video/1");
     videoWidth := 576;
     videoHeight := 1024;
     video_poster := [];
     canvasContext := true;
     drawImage_ok := true;
     detectAllFaces :=
       Returns (Some [{| gender := js "female"; genderProbability := 82 # 100 |}]) |}.

Definition sample_env : Env :=
  {| viewport := sample_viewport;
     location_href := js "https://www.tiktok.com/foryou";
     Date_toISOString := js "2024-01-01T00:00:00.000Z";
     Math_random_key := js "k3j2";
     window_faceapi := true;
     storage_alive := true;
     getURL_ok := true;
     document_videos := [sample_video] |}.

(** The same page after the extension context has been invalidated:
    calls into [chrome.storage] throw. *)
Definition dead_storage_env : Env :=
  {| viewport := sample_viewport;
     location_href := js "https://www.tiktok.com/foryou";
     Date_toISOString := js "2024-01-01T00:00:00.000Z";
     Math_random_key := js "k3j2";
     window_faceapi := true;
     storage_alive := false;
     getURL_ok := true;
     document_videos := [sample_video] |}.

Definition ready_World : World :=
  with_STATE (set_faceApiReady true) initial_World.

(** The world [processVideo] leaves when the store throws under it: the
    classifier was called once, the error was logged, and the key of the
    video is still in the Processing Set. *)
Definition stuck_World : World :=
  log LogProcessVideoError
    (with_classifier_calls 1%nat
       (with_STATE (set_processing {[ js "blob:abc" ]}) ready_World)).

Definition sample_record (u d : string) : MatchRecord :=
  {| url := js u; description := js d; prob := 82 # 100;
     collectedAt := js "2024-01-01T00:00:00.000Z";
     page := js "https://www.tiktok.com/foryou"; poster := None |}.

Definition world_with (l : list MatchRecord) : World :=
  with_tt_matches (Some l) initial_World.

(** Two start requests that both arrive before the classifier is ready:
    the automatic start of lines 338-344 and a [START_SCAN] message, then
    the two script elements settling. *)
Definition concurrent_starts : list Event :=
  [AutoStartFires sample_env;
   MessageArrives sample_env START_SCAN;
   ScriptSettles sample_env 0 ModelsLoaded;
   ScriptSettles sample_env 0 ModelsLoaded].

(** ** The document (for lines 148-179) *)

(** A node of the page: an element with its local name, its attributes
    (first occurrence of a name counts) and its children, or a text
    node. *)
#[local] Unset Elimination Schemes.
Inductive Node : Type :=
| Element (tagName : jsstring) (attributes : list (jsstring * jsstring))
          (childNodes : list Node)
| Text (data : jsstring).
#[local] Set Elimination Schemes.

(** An element is referred to by its position: the child indexes on the
    way from the root element down to it, innermost first, so that the
    parent's reference is the tail. *)
Abbreviation ElementRef := (list nat).

Fixpoint node_from (n : Node) (indexes : list nat) : option Node :=
  match indexes with
  | [] => Some n
  | i :: rest =>
      match n with
      | Element _ _ children =>
          match children !! i with
          | Some c => node_from c rest
          | None => None
          end
      | Text _ => None
      end
  end.

Definition node_at (doc : Node) (ref : ElementRef) : option Node :=
  node_from doc (rev ref).

Definition parentElement (ref : ElementRef) : option ElementRef :=
  match ref with
  | [] => None
  | _ :: parent => Some parent
  end.

(** [node.textContent]: the data of the text nodes below, in order. *)
Fixpoint textContent (n : Node) : jsstring :=
  match n with
  | Text data => data
  | Element _ _ children => flat_map textContent children
  end.

(** The elements below a node, in document order. *)
Fixpoint descendants (n : Node) : list Node :=
  match n with
  | Text _ => []
  | Element _ _ children =>
      flat_map
        (fun c =>
           match c with
           | Element _ _ _ => c :: descendants c
           | Text _ => []
           end)
        children
  end.

Fixpoint attribute_value (name : jsstring) (attrs : list (jsstring * jsstring))
    : option jsstring :=
  match attrs with
  | [] => None
  | (n, v) :: rest => if jsstring_eqb n name then Some v else attribute_value name rest
  end.

(** [el.getAttribute(name)]; [None] is [null]. *)
Definition getAttribute (name : jsstring) (n : Node) : option jsstring :=
  match n with
  | Element _ attrs _ => attribute_value name attrs
  | Text _ => None
  end.

Fixpoint starts_with (prefix s : jsstring) : bool :=
  match prefix, s with
  | [], _ => true
  | p :: prefix', c :: s' => (p =? c) && starts_with prefix' s'
  | _ :: _, [] => false
  end.

(** [needle] occurs in [s]. *)
Fixpoint includes (needle s : jsstring) : bool :=
  starts_with needle s ||
  match s with
  | [] => false
  | _ :: s' => includes needle s'
  end.

(** The selectors the script uses: a comma-separated list of compound
    selectors, each an optional type selector and an optional attribute
    selector ([[name]], [[name="v"]] or [[name*="v"]]). *)
Inductive AttributeTest : Type :=
| Present
| Equals (v : jsstring)
| Contains (v : jsstring).

Record Compound : Type := mkCompound {
  sel_type : option jsstring;
  sel_attribute : option (jsstring * AttributeTest)
}.

Abbreviation Selector := (list Compound).

Definition attribute_test (t : AttributeTest) (value : option jsstring) : bool :=
  match value with
  | None => false
  | Some x =>
      match t with
      | Present => true
      | Equals v => jsstring_eqb x v
      | Contains v => truthy v && includes v x
      end
  end.

Definition matches_compound (c : Compound) (n : Node) : bool :=
  match n with
  | Text _ => false
  | Element tag attrs _ =>
      match sel_type c with
      | None => true
      | Some t => jsstring_eqb tag t
      end &&
      match sel_attribute c with
      | None => true
      | Some (name, t) => attribute_test t (attribute_value name attrs)
      end
  end.

(** [el.matches(selector)]. *)
Definition matches (sel : Selector) (n : Node) : bool :=
  existsb (fun c => matches_compound c n) sel.

Definition querySelectorAll (sel : Selector) (n : Node) : list Node :=
  List.filter (matches sel) (descendants n).

Definition querySelector (sel : Selector) (n : Node) : option Node :=
  head (querySelectorAll sel n).

(** [el.closest(selector)]: the element itself or its nearest ancestor
    that matches. *)
Fixpoint closest (sel : Selector) (doc : Node) (ref : ElementRef)
    : option ElementRef :=
  if match node_at doc ref with
     | Some n => matches sel n
     | None => false
     end
  then Some ref
  else
    match ref with
    | [] => None
    | _ :: parent => closest sel doc parent
    end.

(** [String.prototype.trim]: the white space and line terminator code
    units are removed at both ends. *)
Definition is_white_space (c : N) : bool :=
  (c =? 0x09) || (c =? 0x0A) || (c =? 0x0B) || (c =? 0x0C) || (c =? 0x0D)
  || (c =? 0x20) || (c =? 0xA0) || (c =? 0x1680)
  || in_range 0x2000 0x200A c
  || (c =? 0x2028) || (c =? 0x2029) || (c =? 0x202F) || (c =? 0x205F)
  || (c =? 0x3000) || (c =? 0xFEFF).

Fixpoint trimStart (s : jsstring) : jsstring :=
  match s with
  | [] => []
  | c :: s' => if is_white_space c then trimStart s' else s
  end.

Definition trimEnd (s : jsstring) : jsstring := rev (trimStart (rev s)).

Definition trim (s : jsstring) : jsstring := trimEnd (trimStart s).

(** The selectors of lines 151, 153, 159 and 175. *)
Definition any_data_e2e : Selector :=
  [{| sel_type := None; sel_attribute := Some (js "data-e2e", Present) |}].

Definition description_slot : Selector :=
  [{| sel_type := None;
      sel_attribute := Some (js "data-e2e", Equals (js "video-desc")) |};
   {| sel_type := None;
      sel_attribute := Some (js "data-e2e", Equals (js "browse-video-desc")) |};
   {| sel_type := None;
      sel_attribute := Some (js "data-e2e", Equals (js "feed-video-desc")) |}].

Definition text_blocks : Selector :=
  [{| sel_type := Some (js "div"); sel_attribute := None |};
   {| sel_type := Some (js "span"); sel_attribute := None |};
   {| sel_type := Some (js "strong"); sel_attribute := None |};
   {| sel_type := Some (js "p"); sel_attribute := None |}].

Definition video_anchor : Selector :=
  [{| sel_type := Some (js "a");
      sel_attribute := Some (js "href", Contains (js "/video/")) |}].

Section Extraction.

(** The code points of the Unicode categories L and N, as the
    JavaScript engine knows them. *)
Variable letter_or_number : N -> bool.

(** [/[#@\p{L}\p{N}]/u.test(txt)]: with the [u] flag the subject is
    read by code points. *)
Definition description_like (txt : jsstring) : bool :=
  existsb (fun cp => (cp =? 0x23) || (cp =? 0x40) || letter_or_number cp)
    (codePoints txt).

(** The test of lines 162-164 on a trimmed text. *)
Definition acceptable_text (txt : jsstring) : bool :=
  truthy txt && (2 <=? N.of_nat (length txt)) && description_like txt
  && isArabic (Some txt).

(** The inner loop of lines 160-166: the first text block below [parent]
    whose trimmed text is acceptable. *)
Definition first_acceptable (parent : Node) : option jsstring :=
  head
    (List.filter acceptable_text
       (map (fun c => trim (textContent c)) (querySelectorAll text_blocks parent))).

(** The loop of lines 158-168, with [levels] iterations left. *)
Fixpoint nearby_text (levels : nat) (doc : Node) (parent : option ElementRef)
    : option jsstring :=
  match levels, parent with
  | S levels', Some p =>
      match node_at doc p with
      | Some n =>
          match first_acceptable n with
          | Some txt => Some txt
          | None => nearby_text levels' doc (parentElement p)
          end
      | None => None
      end
  | _, _ => None
  end.

(** Lines 151-155: the text of the description slot below the nearest
    element carrying [data-e2e], when it is not blank. *)
Definition slot_text (doc : Node) (video : ElementRef) : option jsstring :=
  match closest any_data_e2e doc video with
  | None => None
  | Some el =>
      match node_at doc el with
      | None => None
      | Some n =>
          match querySelector description_slot n with
          | None => None
          | Some desc1 =>
              if truthy (trim (textContent desc1))
              then Some (trim (textContent desc1))
              else None
          end
      end
  end.

(** Lines 170-171. *)
Definition label_text (doc : Node) (video : ElementRef) : jsstring :=
  let attr name :=
    match node_at doc video with
    | Some n => default [] (getAttribute name n)
    | None => []
    end in
  trim (or_else (attr (js "aria-label")) (or_else (attr (js "title")) [])).

Definition extractDescriptionForVideo (doc : Node) (video : ElementRef)
    : jsstring :=
  match slot_text doc video with
  | Some txt => txt
  | None =>
      match nearby_text 5 doc (parentElement video) with
      | Some txt => txt
      | None => label_text doc video
      end
  end.

(** [anchor.href]: the attribute value resolved against the base
    address of the document. *)
Variable resolved_href : jsstring -> jsstring.

(** The anchor of line 175. *)
Definition video_anchor_of (doc : Node) (video : ElementRef) : option Node :=
  match closest video_anchor doc video with
  | Some a => node_at doc a
  | None =>
      match parentElement video with
      | None => None
      | Some p =>
          match node_at doc p with
          | None => None
          | Some n => querySelector video_anchor n
          end
      end
  end.

Definition findVideoUrl (doc : Node) (location : jsstring) (video : ElementRef)
    : jsstring :=
  match video_anchor_of doc video with
  | Some anchor =>
      let href := resolved_href (default [] (getAttribute (js "href") anchor)) in
      if truthy href then href else location
  | None => location
  end.

End Extraction.

(** ** Notions used for the extraction *)

(** No white space at either end. *)
Definition trimmed (s : jsstring) : Prop := trimStart s = s /\ trimEnd s = s.

(** The elements of the document: the root and everything below it. *)
Definition all_elements (doc : Node) : list Node := doc :: descendants doc.

(** A feed item: a container marked [data-e2e] holding the player (the
    video and a permalink) and a caption with white space around it. *)
Definition sample_doc : Node :=
  Element (js "div") [(js "data-e2e", js "recommend-list-item-container")]
    [Element (js "div") []
       [Element (js "video") [(js "aria-label", js " clip ")] [];
        Element (js "a") [(js "href", js "/@u/video/1")] [Text (js "open")]];
     Element (js "div") []
       [Element (js "span") [] [Text (0x20 :: sample_description ++ [0x0A])]]].

(** The same item without the permalink and the caption. *)
Definition bare_doc : Node :=
  Element (js "div") [(js "data-e2e", js "recommend-list-item-container")]
    [Element (js "div") []
       [Element (js "video") [(js "aria-label", js " clip ")] []]].

(** An item whose caption sits beside the video, under the same parent. *)
Definition caption_doc : Node :=
  Element (js "div") [(js "data-e2e", js "recommend-list-item-container")]
    [Element (js "div") []
       [Element (js "video") [] [];
        Element (js "p") [] [Text (0x20 :: sample_description ++ [0x0A])]]].

(** The video of these documents: first child of the first child. *)
Definition sample_ref : ElementRef := [0%nat; 0%nat].

(** ** Notions used for the scan loop and the message interface *)

(** The identity key a suspended pipeline holds. *)
Definition frame_key (fr : PipelineFrame) : jsstring :=
  match fr with
  | AwaitingDetect key _ _ _ => key
  | AwaitingSave key _ => key
  end.

(** The timers are well kept: identifiers are positive, below the next
    one to be handed out and pairwise distinct; the handle in
    [STATE.intervalId] names an armed timer; and there is a handle exactly
    when [STATE.scanning] is set. *)
Definition timers_ok (w : World) : Prop :=
  (0 < next_interval w)%nat /\
  (forall id, In id (intervals w) -> (0 < id < next_interval w)%nat) /\
  NoDup (intervals w) /\
  (forall id, intervalId (STATE w) = Some id -> In id (intervals w)) /\
  (scanning (STATE w) = true <-> intervalId (STATE w) <> None).

(** A timer that is armed while [STATE.intervalId] does not hold its
    identifier. *)
Definition orphan_timer (id : nat) (w : World) : Prop :=
  In id (intervals w) /\ intervalId (STATE w) <> Some id /\
  (id < next_interval w)%nat.

(** The requests the message handler answers: [START_SCAN], [STOP_SCAN]
    and [GET_STATUS] always, [CLEAR_LIST] and [GET_MATCHES] when the
    storage call goes through. *)
Definition answerable (e : Event) : bool :=
  match e with
  | MessageArrives env msg =>
      match msg with
      | START_SCAN | STOP_SCAN | GET_STATUS => true
      | CLEAR_LIST | GET_MATCHES => storage_alive env
      | OtherMessage => false
      end
  | _ => false
  end.

Fixpoint requests (es : list Event) : nat :=
  match es with
  | [] => 0%nat
  | e :: es' => ((if answerable e then 1 else 0) + requests es')%nat
  end.

(** The suspended start requests that owe a response. *)
Fixpoint awaiting_response (frs : list StartFrame) : nat :=
  match frs with
  | [] => 0%nat
  | fr :: frs' => ((if respond fr then 1 else 0) + awaiting_response frs')%nat
  end.

(** The responses sent so far together with those still owed by a
    suspended start request. *)
Definition owed (w : World) : nat :=
  (length (responses w) + awaiting_response (pending_starts w))%nat.

(** The event is a stop request. *)
Definition is_stop_request (e : Event) : bool :=
  match e with
  | MessageArrives _ STOP_SCAN => true
  | _ => false
  end.

(** The number of resumptions a suspended pipeline still needs at most. *)
Definition frame_weight (fr : PipelineFrame) : nat :=
  match fr with
  | AwaitingDetect _ _ _ _ => 2%nat
  | AwaitingSave _ _ => 1%nat
  end.

Fixpoint inflight_weight (frs : list PipelineFrame) : nat :=
  match frs with
  | [] => 0%nat
  | fr :: frs' => (frame_weight fr + inflight_weight frs')%nat
  end.

(** At most one pipeline is suspended per key, and the key of every
    suspended pipeline is in the Processing Set. *)
Definition one_pipeline_per_key (w : World) : Prop :=
  NoDup (map frame_key (inflight w)) /\
  forall fr, In fr (inflight w) -> frame_key fr ∈ processing (STATE w).

(** The scanner has done nothing yet: it is not scanning, no timer is
    armed, no pass was made, no pipeline is suspended, the classifier was
    never called, and the store holds [t] or was emptied. *)
Definition dormant (t : option (list MatchRecord)) (w : World) : Prop :=
  scanning (STATE w) = false /\
  intervals w = [] /\
  scan_passes w = 0%nat /\
  inflight w = [] /\
  classifier_calls w = 0%nat /\
  (tt_matches w = t \/ tt_matches w = Some []).

(** The event empties the store. *)
Definition clears_store (e : Event) : bool :=
  match e with
  | MessageArrives env CLEAR_LIST => storage_alive env
  | _ => false
  end.

(** The initialisation a start request attempts goes through: the
    classifier is ready already, or the script element can be appended and
    settles with both models loaded. *)
Definition initialisation_succeeds (env : Env) (o : ScriptEvent) (w : World)
    : bool :=
  faceApiReady (STATE w) ||
  (getURL_ok env && match o with ModelsLoaded => true | _ => false end).


(** * Properties *)

(** ** Numbers and strings *)

Lemma Qltb_lt (a b : Q) : Qltb a b = true <-> (a < b)%Q.
Proof.
  unfold Qltb. rewrite negb_true_iff. split.
  - intros H. apply Qnot_le_lt. intros Hle.
    apply Qle_bool_iff in Hle. congruence.
  - intros H. destruct (Qle_bool b a) eqn:E; [|reflexivity].
    apply Qle_bool_iff in E. exfalso. exact (Qlt_not_le _ _ H E).
Qed.

Lemma jsstring_eqb_eq (a b : jsstring) : jsstring_eqb a b = true <-> a = b.
Proof. unfold jsstring_eqb. apply bool_decide_eq_true. Qed.

Lemma truthy_nonempty (s : jsstring) : truthy s = true <-> s <> [].
Proof. destruct s; simpl; split; congruence. Qed.

Lemma in_range_spec (lo hi c : N) : in_range lo hi c = true <-> lo <= c <= hi.
Proof. unfold in_range. rewrite andb_true_iff, !N.leb_le. tauto. Qed.

Lemma arabic_class_spec (c : N) : arabic_class c = true <-> arabic_code_point c.
Proof.
  unfold arabic_class, arabic_code_point.
  rewrite !orb_true_iff, !in_range_spec. tauto.
Qed.

(** ** Text filter *)

Lemma isArabic_code_units (s : jsstring) :
  isArabic (Some s) = true <-> exists c, In c s /\ arabic_code_point c.
Proof.
  unfold isArabic, regex_test_class. simpl. rewrite existsb_exists.
  split; intros [c [Hin Hc]]; exists c; split; auto; now apply arabic_class_spec.
Qed.

Lemma surrogate_not_arabic (c : N) :
  is_high_surrogate c || is_low_surrogate c = true -> arabic_class c = false.
Proof.
  unfold is_high_surrogate, is_low_surrogate, arabic_class, in_range.
  rewrite orb_true_iff, !andb_true_iff, !N.leb_le. intros H.
  rewrite !orb_false_iff, !andb_false_iff, !N.leb_gt. lia.
Qed.

Lemma supplementary_not_arabic (c d : N) :
  arabic_class (0x10000 + (c - 0xD800) * 0x400 + (d - 0xDC00)) = false.
Proof.
  unfold arabic_class, in_range.
  rewrite !orb_false_iff, !andb_false_iff, !N.leb_gt. lia.
Qed.

(** Pairing surrogates neither adds nor removes a character of the class:
    the three blocks lie in the basic plane, below the surrogates. *)
Lemma existsb_codePoints (s : jsstring) :
  existsb arabic_class (codePoints s) = existsb arabic_class s.
Proof.
  assert (H : forall n (t : jsstring), (length t <= n)%nat ->
            existsb arabic_class (codePoints t) = existsb arabic_class t).
  { induction n as [|n IH]; intros t Hlen.
    - destruct t; [reflexivity | simpl in Hlen; lia].
    - destruct t as [|c [|d rest]]; [reflexivity | reflexivity |].
      cbn [codePoints].
      destruct (is_high_surrogate c && is_low_surrogate d) eqn:E.
      + apply andb_true_iff in E as [Hc Hd].
        cbn [existsb]. rewrite supplementary_not_arabic.
        rewrite (surrogate_not_arabic c), (surrogate_not_arabic d).
        * simpl. apply IH. simpl in Hlen. lia.
        * rewrite Hd. apply orb_true_r.
        * rewrite Hc. reflexivity.
      + change (existsb arabic_class (c :: codePoints (d :: rest))
                = existsb arabic_class (c :: d :: rest)).
        cbn [existsb]. f_equal. apply (IH (d :: rest)). simpl in *. lia. }
  apply (H (length s)). lia.
Qed.

(** C9: [isArabic] holds of a string exactly when one of its code points
    lies in U+0600-U+06FF, U+0750-U+077F or U+08A0-U+08FF; it is false of
    the empty string and of an absent value, true of the Arabic sample
    word and false of "hello". *)
Theorem isArabic_spec :
  (forall s : jsstring,
      isArabic (Some s) = true <->
      exists c, In c (codePoints s) /\ arabic_code_point c) /\
  isArabic (Some []) = false /\
  isArabic None = false /\
  isArabic (Some marhaban) = true /\
  isArabic (Some hello) = false.
Proof.
  split; [|repeat split; reflexivity].
  intros s. unfold isArabic, regex_test_class. simpl.
  rewrite <- existsb_codePoints, existsb_exists.
  split; intros [c [Hin Hc]]; exists c; split; auto; now apply arabic_class_spec.
Qed.

(** ** Visibility filter *)

Lemma isElementInViewport_true (win : Viewport) (rect : DOMRect) :
  isElementInViewport win rect = true <-> box_visible win rect.
Proof.
  unfold isElementInViewport, box_visible.
  rewrite !andb_true_iff, !Qltb_lt. tauto.
Qed.

(** C8: [isElementInViewport] is true exactly when the box has positive
    width and height and overlaps the viewport on both axes; a box of
    width 0 or of height 0 is never visible. *)
Theorem isElementInViewport_spec (win : Viewport) (rect : DOMRect) :
  (isElementInViewport win rect = true <->
   (0 < rect_width rect /\ 0 < rect_height rect /\
    rect_top rect < viewport_height win /\ 0 < rect_bottom rect /\
    rect_left rect < viewport_width win /\ 0 < rect_right rect)%Q) /\
  ((rect_width rect == 0 \/ rect_height rect == 0)%Q ->
   isElementInViewport win rect = false).
Proof.
  split; [apply isElementInViewport_true|].
  intros Hz. destruct (isElementInViewport win rect) eqn:E; [|reflexivity].
  apply isElementInViewport_true in E.
  destruct E as (Hw & Hh & _). exfalso.
  destruct Hz as [Hz|Hz]; rewrite Hz in *;
    [exact (Qlt_irrefl _ Hw) | exact (Qlt_irrefl _ Hh)].
Qed.

Lemma isElementInViewport_spec_witness :
  isElementInViewport sample_viewport sample_rect = true /\
  isElementInViewport sample_viewport
    {| rect_top := 10; rect_bottom := 10; rect_left := 10; rect_right := 110;
       rect_width := 100; rect_height := 0 |} = false.
Proof.
  split.
  - apply (proj1 (isElementInViewport_spec sample_viewport sample_rect)).
    vm_compute. repeat split; reflexivity.
  - apply (proj2 (isElementInViewport_spec sample_viewport _)).
    right. reflexivity.
Defined.

(** ** Dedup store *)

Lemma same_match_spec (record x : MatchRecord) :
  same_match record x = true <->
  url x = url record \/
  (description record <> [] /\ description x = description record).
Proof.
  unfold same_match.
  rewrite orb_true_iff, andb_true_iff, !jsstring_eqb_eq, truthy_nonempty.
  tauto.
Qed.


Lemma same_match_refl (record : MatchRecord) : same_match record record = true.
Proof. apply same_match_spec. now left. Qed.

Lemma saveMatch_fresh (env : Env) (record : MatchRecord) (w : World) :
  storage_alive env = true ->
  existsb (same_match record) (stored w) = false ->
  saveMatch env record w =
    (with_tt_matches (Some (stored w ++ [record])) w, Returns true).
Proof.
  intros Ha He. unfold saveMatch, stored in *. rewrite Ha. simpl.
  rewrite He. reflexivity.
Qed.

Lemma saveMatch_duplicate (env : Env) (record : MatchRecord) (w : World) :
  storage_alive env = true ->
  existsb (same_match record) (stored w) = true ->
  saveMatch env record w = (w, Returns false).
Proof.
  intros Ha He. unfold saveMatch, stored in *. rewrite Ha. simpl.
  rewrite He. reflexivity.
Qed.

Lemma saveMatch_dead (env : Env) (record : MatchRecord) (w : World) :
  storage_alive env = false -> saveMatch env record w = (w, Throws).
Proof. intros Ha. unfold saveMatch. rewrite Ha. reflexivity. Qed.



(** A slot that was never written counts as the empty list. *)
Lemma saveMatch_first (env : Env) (record : MatchRecord) (w : World) :
  storage_alive env = true ->
  tt_matches w = None ->
  saveMatch env record w = (with_tt_matches (Some [record]) w, Returns true).
Proof.
  intros Ha Hn. rewrite saveMatch_fresh; unfold stored; rewrite ?Hn; auto.
Qed.

Lemma stored_with_tt_matches (l : list MatchRecord) (w : World) :
  stored (with_tt_matches (Some l) w) = l.
Proof. reflexivity. Qed.

(** A record is a duplicate of any list it was just added to. *)
Lemma existsb_same_match_app (record r : MatchRecord) (l : list MatchRecord) :
  same_match record r = true ->
  existsb (same_match record) (l ++ [r]) = true.
Proof.
  intros H. rewrite existsb_app. simpl. rewrite H.
  rewrite orb_true_r. reflexivity.
Qed.




(** ** Frame classifier adapter *)

Lemma num_or_zero (p : Q) : (num_or p 0 == p)%Q.
Proof.
  unfold num_or. destruct (Qeq_bool p 0) eqn:E; [|reflexivity].
  apply Qeq_bool_iff in E. symmetry. exact E.
Qed.

Lemma Math_max_cases (a b : Q) :
  (Math_max a b = b /\ (a <= b)%Q) \/ (Math_max a b = a /\ (b <= a)%Q).
Proof.
  unfold Math_max. destruct (Qle_bool a b) eqn:E.
  - left. split; [reflexivity|]. now apply Qle_bool_iff.
  - right. split; [reflexivity|].
    apply Qlt_le_weak, Qnot_le_lt. intros H.
    apply Qle_bool_iff in H. congruence.
Qed.

Lemma maxProb_step_cases (m : Q) (d : Detection) :
  (maxProb_step m d = m /\ (is_female d -> (genderProbability d <= m)%Q)) \/
  (is_female d /\ (maxProb_step m d == genderProbability d)%Q /\
   (m <= maxProb_step m d)%Q).
Proof.
  unfold maxProb_step, is_female.
  destruct (jsstring_eqb (gender d) (js "female")) eqn:E.
  - apply jsstring_eqb_eq in E.
    destruct (Math_max_cases m (num_or (genderProbability d) 0))
      as [[-> Hle]|[-> Hle]].
    + right. split; [assumption|]. split; [apply num_or_zero | assumption].
    + left. split; [reflexivity|]. intros _.
      rewrite <- (num_or_zero (genderProbability d)). assumption.
  - left. split; [reflexivity|]. intros Hf.
    apply jsstring_eqb_eq in Hf. congruence.
Qed.

Lemma loop_ge_start (ds : list Detection) (start : Q) :
  (start <= fold_left maxProb_step ds start)%Q.
Proof.
  revert start. induction ds as [|d ds IH]; intros start; simpl.
  - apply Qle_refl.
  - apply Qle_trans with (maxProb_step start d); [|apply IH].
    destruct (maxProb_step_cases start d) as [[-> _]|(_ & _ & H)];
      [apply Qle_refl | exact H].
Qed.

Lemma loop_upper_bound (ds : list Detection) (start : Q) (d : Detection) :
  In d ds -> is_female d ->
  (genderProbability d <= fold_left maxProb_step ds start)%Q.
Proof.
  revert start. induction ds as [|x ds IH]; intros start Hin Hf; [contradiction|].
  simpl. destruct Hin as [->|Hin]; [|now apply IH].
  apply Qle_trans with (maxProb_step start d); [|apply loop_ge_start].
  destruct (maxProb_step_cases start d) as [[-> H]|(_ & H & _)].
  - now apply H.
  - rewrite H. apply Qle_refl.
Qed.

Lemma loop_attained (ds : list Detection) (start : Q) :
  fold_left maxProb_step ds start = start \/
  exists d, In d ds /\ is_female d /\
            (fold_left maxProb_step ds start == genderProbability d)%Q.
Proof.
  revert start. induction ds as [|x ds IH]; intros start; simpl; [now left|].
  destruct (IH (maxProb_step start x)) as [Heq|(d & Hin & Hf & Hd)].
  - rewrite Heq.
    destruct (maxProb_step_cases start x) as [[-> _]|(Hf & H & _)]; [now left|].
    right. exists x. auto.
  - right. exists d. auto.
Qed.

Lemma femaleProbThreshold_pos : (0 < femaleProbThreshold)%Q.
Proof. reflexivity. Qed.

(** The verdict is positive exactly when a detection of the target
    category reaches the threshold. *)
Lemma maxFemaleProb_threshold (ds : list Detection) :
  Qle_bool femaleProbThreshold (maxFemaleProb ds) = true <->
  exists d, In d ds /\ is_female d /\
            (femaleProbThreshold <= genderProbability d)%Q.
Proof.
  rewrite Qle_bool_iff. unfold maxFemaleProb. split.
  - intros H. destruct (loop_attained ds 0) as [Heq|(d & Hin & Hf & Hd)].
    + rewrite Heq in H. exfalso.
      exact (Qlt_not_le _ _ femaleProbThreshold_pos H).
    + exists d. rewrite <- Hd. auto.
  - intros (d & Hin & Hf & Hd).
    apply Qle_trans with (genderProbability d); [assumption|].
    now apply loop_upper_bound.
Qed.

(** [detectFemaleOnFrame] as a case analysis on what it consults. *)
Lemma detectFemaleOnFrame_cases (env : Env) (video : Video) (w : World) :
  detectFemaleOnFrame env video w =
    if negb (faceApiReady (STATE w)) || negb (window_faceapi env)
    then (w, Returns negative)
    else if (N.max 1 (videoWidth video) <? 2) || (N.max 1 (videoHeight video) <? 2)
    then (w, Returns negative)
    else if negb (canvasContext video) then (w, Returns negative)
    else if negb (drawImage_ok video)
    then (log LogDetectError w, Returns negative)
    else
      let w1 := with_classifier_calls (S (classifier_calls w)) w in
      match detectAllFaces video with
      | Throws => (log LogDetectError w1, Returns negative)
      | Returns None => (w1, Returns negative)
      | Returns (Some ds) =>
          (w1, Returns {| isFemale := Qle_bool femaleProbThreshold (maxFemaleProb ds);
                          verdict_prob := maxFemaleProb ds |})
      end.
Proof.
  unfold detectFemaleOnFrame, try_catch, bind, gets, ret, throw, modify, call.
  destruct (faceApiReady (STATE w)), (window_faceapi env); simpl; try reflexivity.
  destruct ((N.max 1 (videoWidth video) <? 2) || (N.max 1 (videoHeight video) <? 2));
    [reflexivity|].
  destruct (canvasContext video); simpl; [|reflexivity].
  destruct (drawImage_ok video); simpl; [|reflexivity].
  destruct (detectAllFaces video) as [[[|d ds]|]|]; reflexivity.
Qed.

(** The adapter never throws, and a positive verdict carries a confidence
    that reaches the threshold. *)
Lemma detectFemaleOnFrame_returns (env : Env) (video : Video) (w : World) :
  exists w' v,
    detectFemaleOnFrame env video w = (w', Returns v) /\
    (isFemale v = true -> (femaleProbThreshold <= verdict_prob v)%Q) /\
    STATE w' = STATE w /\ tt_matches w' = tt_matches w /\
    inflight w' = inflight w /\ control w' = control w /\
    scan_passes w' = scan_passes w.
Proof.
  rewrite detectFemaleOnFrame_cases.
  repeat match goal with
         | |- context [if ?b then _ else _] => destruct b
         | |- context [match ?o with Returns _ => _ | Throws => _ end] => destruct o
         | |- context [match ?o with Some _ => _ | None => _ end] => destruct o
         end;
    eexists _, _; (split; [reflexivity|]); simpl;
    (split; [|repeat split]); try discriminate.
  apply Qle_bool_iff.
Qed.

(** C4: when the classifier is reached and answers with the detections
    [ds], the verdict is positive exactly when some detection of the
    target category has confidence at least the threshold, and the
    confidence reported is the greatest confidence of a target-category
    detection ([0] when there is none); an element whose intrinsic width
    or height is 0 or 1 gets the negative verdict with confidence [0] and
    the classifier is not invoked; and for every element the call returns
    a verdict, positive only if the classifier was invoked and answered
    with such a detection. *)
Theorem detectFemaleOnFrame_spec (env : Env) (video : Video) (w : World) :
  (forall ds,
      faceApiReady (STATE w) = true -> window_faceapi env = true ->
      2 <= videoWidth video -> 2 <= videoHeight video ->
      canvasContext video = true -> drawImage_ok video = true ->
      detectAllFaces video = Returns (Some ds) ->
      exists v,
        detectFemaleOnFrame env video w
          = (with_classifier_calls (S (classifier_calls w)) w, Returns v) /\
        (isFemale v = true <->
         exists d, In d ds /\ is_female d /\
                   (femaleProbThreshold <= genderProbability d)%Q) /\
        ((forall d, In d ds -> is_female d -> (0 <= genderProbability d)%Q) ->
         ((forall d, In d ds -> ~ is_female d) -> (verdict_prob v == 0)%Q) /\
         (forall d, In d ds -> is_female d ->
                    (genderProbability d <= verdict_prob v)%Q) /\
         ((exists d, In d ds /\ is_female d) ->
          exists d, In d ds /\ is_female d /\
                    (verdict_prob v == genderProbability d)%Q))) /\
  (videoWidth video <= 1 \/ videoHeight video <= 1 ->
   detectFemaleOnFrame env video w = (w, Returns negative) /\
   classifier_calls (fst (detectFemaleOnFrame env video w)) = classifier_calls w) /\
  (exists w' v,
      detectFemaleOnFrame env video w = (w', Returns v) /\
      (isFemale v = true ->
       classifier_calls w' = S (classifier_calls w) /\
       exists ds d,
         detectAllFaces video = Returns (Some ds) /\ In d ds /\ is_female d /\
         (femaleProbThreshold <= genderProbability d)%Q)).
Proof.
  split; [|split].
  - intros ds Hready Hapi Hw Hh Hctx Hdraw Hds.
    rewrite detectFemaleOnFrame_cases, Hready, Hapi, Hctx, Hdraw, Hds. simpl.
    replace (N.max 1 (videoWidth video) <? 2) with false
      by (symmetry; apply N.ltb_ge; lia).
    replace (N.max 1 (videoHeight video) <? 2) with false
      by (symmetry; apply N.ltb_ge; lia).
    simpl. eexists. split; [reflexivity|]. simpl.
    split; [apply maxFemaleProb_threshold|].
    intros Hnonneg. unfold maxFemaleProb. repeat split.
    + intros Hnone. destruct (loop_attained ds 0) as [->|(d & Hin & Hf & _)];
        [reflexivity | exfalso; exact (Hnone d Hin Hf)].
    + intros d Hin Hf. now apply loop_upper_bound.
    + intros (d & Hin & Hf).
      destruct (loop_attained ds 0) as [Heq|Hex]; [|exact Hex].
      exists d. split; [assumption|]. split; [assumption|].
      rewrite Heq. apply Qle_antisym.
      * now apply Hnonneg.
      * rewrite <- Heq. now apply loop_upper_bound.
  - intros Hdim.
    assert (E : detectFemaleOnFrame env video w = (w, Returns negative)).
    { rewrite detectFemaleOnFrame_cases.
      destruct (negb (faceApiReady (STATE w)) || negb (window_faceapi env));
        [reflexivity|].
      replace ((N.max 1 (videoWidth video) <? 2) || (N.max 1 (videoHeight video) <? 2))
        with true; [reflexivity|].
      symmetry. apply orb_true_iff. rewrite !N.ltb_lt. lia. }
    rewrite E. split; reflexivity.
  - rewrite detectFemaleOnFrame_cases.
    repeat match goal with
           | |- context [if ?b then _ else _] => destruct b
           end;
      try (eexists _, _; split; [reflexivity|]; discriminate).
    destruct (detectAllFaces video) as [[ds|]|]; simpl;
      try (eexists _, _; split; [reflexivity|]; discriminate).
    eexists _, _. split; [reflexivity|]. simpl. intros Hpos.
    split; [reflexivity|].
    apply maxFemaleProb_threshold in Hpos as (d & Hin & Hf & Hd).
    exists ds, d. auto.
Qed.

Lemma detectFemaleOnFrame_spec_witness :
  (exists v,
     detectFemaleOnFrame sample_env sample_video ready_World
       = (with_classifier_calls 1 ready_World, Returns v) /\
     isFemale v = true /\ (verdict_prob v == 82 # 100)%Q) /\
  detectFemaleOnFrame sample_env
    {| isHTMLVideoElement := true; currentSrc := js "blob:abc"; src := [];
       dataset_scanKey := None; boundingClientRect := sample_rect;
       extractedDescription := Returns sample_description;
       foundVideoUrl := Returns (js "https://www.tiktok.com/@u/video/1");
       videoWidth := 0; videoHeight := 0; video_poster := [];
       canvasContext := true; drawImage_ok := true;
       detectAllFaces := Throws |} ready_World
    = (ready_World, Returns negative).
Proof.
  split.
  - destruct (proj1 (detectFemaleOnFrame_spec sample_env sample_video ready_World)
                [{| gender := js "female"; genderProbability := 82 # 100 |}])
      as (v & Hrun & Hpos & Hmax); try reflexivity; try (vm_compute; congruence).
    exists v. split; [exact Hrun|]. split.
    + apply Hpos. eexists. split; [left; reflexivity|].
      split; [reflexivity | vm_compute; congruence].
    + destruct Hmax as (_ & _ & Hatt).
      * intros d [<-|[]] _. vm_compute. congruence.
      * destruct Hatt as (d & [<-|[]] & _ & Hd); [|exact Hd].
        eexists. split; [left; reflexivity | reflexivity].
  - apply (proj1 (proj2 (detectFemaleOnFrame_spec sample_env _ ready_World))).
    left. vm_compute. congruence.
Defined.

(** ** Start and stop *)

(** C7: a start request while scanning changes nothing and answers
    success with [scanning] set; a stop request while idle changes
    nothing and answers success with [scanning] unset.  In both cases the
    world after the request is the world before it with the response
    added. *)
Theorem start_stop_noop :
  (forall env w,
      scanning (STATE w) = true ->
      startScanning env w = (w, Some true) /\
      onMessage env START_SCAN w
        = sendResponse (StartResponse true true (faceApiReady (STATE w))) w) /\
  (forall env w,
      scanning (STATE w) = false ->
      stopScanning w = (w, true) /\
      onMessage env STOP_SCAN w = sendResponse (StopResponse true false) w).
Proof.
  split; intros env w Hs.
  - unfold onMessage, startScanning, startResponse. rewrite Hs. simpl.
    rewrite Hs. auto.
  - unfold onMessage, stopScanning. rewrite Hs. simpl. rewrite Hs. auto.
Qed.

Lemma start_stop_noop_witness :
  let scanning_World := fst (startScanning_to_end sample_env ModelsLoaded ready_World) in
  startScanning sample_env scanning_World = (scanning_World, Some true) /\
  intervals (fst (startScanning sample_env scanning_World)) = [1%nat] /\
  scan_passes (fst (startScanning sample_env scanning_World)) = 1%nat /\
  stopScanning initial_World = (initial_World, true).
Proof.
  intros scanning_World.
  destruct (proj1 start_stop_noop sample_env scanning_World eq_refl) as [H1 _].
  destruct (proj2 start_stop_noop sample_env initial_World eq_refl) as [H2 _].
  rewrite H1. repeat split; auto.
Defined.

(** ** Per-candidate pipeline *)

Ltac unfold_M :=
  unfold try_catch, bind, ret, throw, modify, gets, call, processing_add,
    processing_delete, processing_has, processVideo_catch in *.

Ltac use_detect :=
  match goal with
  | |- context [detectFemaleOnFrame ?e ?v ?w] =>
      let w1 := fresh "w1" in
      let vd := fresh "vd" in
      let Hrun := fresh "Hrun" in
      let Hvd := fresh "Hvd" in
      let HS := fresh "HS" in
      let Ht := fresh "Ht" in
      let Hi := fresh "Hi" in
      let Hc := fresh "Hc" in
      let Hp := fresh "Hp" in
      destruct (detectFemaleOnFrame_returns e v w)
        as (w1 & vd & Hrun & Hvd & HS & Ht & Hi & Hc & Hp);
      rewrite Hrun
  end.

Lemma isArabic_nonempty (s : jsstring) : isArabic (Some s) = true -> s <> [].
Proof. intros H ->. discriminate. Qed.

(** The first piece of an activation writes neither the store nor the
    control fields, does not throw, and suspends only with a frame whose
    description passed the text filter. *)
Lemma processVideo_shape (env : Env) (video : Video) (w : World) :
  exists w' r,
    processVideo env video w = (w', Returns r) /\
    tt_matches w' = tt_matches w /\
    inflight w' = inflight w /\
    control w' = control w /\
    scan_passes w' = scan_passes w /\
    (forall fr, r = Some fr -> frame_qualified fr).
Proof.
  unfold processVideo. unfold_M.
  destruct (isHTMLVideoElement video); simpl;
    [|eexists _, _; repeat split; discriminate].
  destruct (bool_decide _); simpl; [eexists _, _; repeat split; discriminate|].
  destruct (isElementInViewport _ _); simpl;
    [|eexists _, _; repeat split; discriminate].
  destruct (extractedDescription video) as [d|]; simpl;
    [|eexists _, _; repeat split; discriminate].
  destruct (isArabic (Some d)) eqn:Hd; simpl;
    [|eexists _, _; repeat split; discriminate].
  use_detect. eexists _, _. split; [reflexivity|].
  rewrite Ht, Hi, Hc, Hp. repeat split.
  intros fr [= <-]. simpl. auto.
Qed.

(** A continuation does not throw either; it leaves the store alone or
    adds one record at its end, and that record is qualified when the
    frame was. *)
Lemma resume_shape (env : Env) (fr : PipelineFrame) (w : World) :
  frame_qualified fr ->
  exists w' r,
    resume env fr w = (w', Returns r) /\
    (tt_matches w' = tt_matches w \/
     exists record, tt_matches w' = Some (stored w ++ [record]) /\
                    qualified record) /\
    inflight w' = inflight w /\
    control w' = control w /\
    (forall fr', r = Some fr' -> frame_qualified fr').
Proof.
  destruct fr as [key video d vd|key record]; simpl; intros Hq.
  - destruct Hq as [Hd Hvd].
    unfold processVideo_after_detect. unfold_M.
    destruct (isFemale vd) eqn:Hf; simpl;
      [|eexists _, _; repeat split; [now left | discriminate]].
    destruct (foundVideoUrl video) as [u|]; simpl;
      [|eexists _, _; repeat split; [now left | discriminate]].
    unfold saveMatch.
    destruct (storage_alive env); simpl;
      [|eexists _, _; repeat split; [now left | discriminate]].
    assert (Hrec : forall p, qualified
              {| url := u; description := d; prob := verdict_prob vd;
                 collectedAt := Date_toISOString env;
                 page := location_href env; poster := p |}).
    { intros p. repeat split; simpl; auto. now apply isArabic_nonempty. }
    destruct (existsb _ _); simpl; eexists _, _;
      (split; [reflexivity|]); simpl; repeat split;
      try (now left); try (intros fr' [= <-]; apply Hrec).
    right. eexists. split; [reflexivity | apply Hrec].
  - unfold processVideo_after_save. unfold_M. simpl.
    eexists _, _. repeat split; [now left | discriminate].
Qed.

Lemma park_shape (r : World * outcome (option PipelineFrame)) (P : PipelineFrame -> Prop) :
  (forall fr, snd r = Returns (Some fr) -> P fr) ->
  Forall P (inflight (fst r)) ->
  tt_matches (park r) = tt_matches (fst r) /\
  control (park r) = control (fst r) /\
  scan_passes (park r) = scan_passes (fst r) /\
  Forall P (inflight (park r)).
Proof.
  destruct r as [w [[fr|]|]]; simpl; intros Hfr Hall; repeat split; auto.
  apply Forall_app. split; [assumption|]. constructor; [|constructor].
  now apply Hfr.
Qed.

(** A scan pass starts pipelines and nothing else: the store and the
    control fields stay, and the frames it leaves are qualified. *)
Lemma scanOnce_shape (env : Env) (w : World) :
  Forall frame_qualified (inflight w) ->
  tt_matches (scanOnce env w) = tt_matches w /\
  control (scanOnce env w) = control w /\
  scan_passes (scanOnce env w) = S (scan_passes w) /\
  Forall frame_qualified (inflight (scanOnce env w)).
Proof.
  unfold scanOnce.
  set (w0 := with_scan_passes (S (scan_passes w)) w).
  assert (H0 : tt_matches w0 = tt_matches w /\ control w0 = control w /\
               scan_passes w0 = S (scan_passes w)) by (repeat split).
  intros Hall. change (inflight w) with (inflight w0) in Hall.
  destruct H0 as (<- & <- & <-).
  generalize dependent w0. clear w.
  induction (document_videos env) as [|v vs IH]; intros w0 Hall; simpl; [auto|].
  destruct (processVideo_shape env v w0)
    as (w1 & r & Hrun & Ht & Hi & Hc & Hp & Hfr).
  destruct (park_shape (processVideo env v w0) frame_qualified)
    as (Pt & Pc & Pp & Pall).
  { rewrite Hrun. simpl. intros fr [= ->]. now apply Hfr. }
  { rewrite Hrun. simpl. rewrite Hi. assumption. }
  destruct (IH _ Pall) as (It & Ic & Ip & Iall).
  rewrite It, Ic, Ip, Pt, Pc, Pp.
  split; [|split; [|split; [|exact Iall]]]; rewrite Hrun; simpl; assumption.
Qed.

Lemma startScanning_after_inject_shape (env : Env) (loaded : bool) (w : World) :
  Forall frame_qualified (inflight w) ->
  tt_matches (fst (startScanning_after_inject env loaded w)) = tt_matches w /\
  Forall frame_qualified (inflight (fst (startScanning_after_inject env loaded w))).
Proof.
  intros Hall. unfold startScanning_after_inject.
  destruct loaded; simpl; [|auto].
  destruct (scanOnce_shape env (with_STATE (set_scanning true) w) Hall)
    as (Ht & _ & _ & Hi).
  rewrite Ht. auto.
Qed.

Lemma startScanning_shape (env : Env) (w : World) :
  Forall frame_qualified (inflight w) ->
  tt_matches (fst (startScanning env w)) = tt_matches w /\
  Forall frame_qualified (inflight (fst (startScanning env w))).
Proof.
  intros Hall. unfold startScanning, injectFaceApi.
  destruct (scanning (STATE w)); simpl; [auto|].
  destruct (faceApiReady (STATE w)); simpl.
  - destruct (scanOnce_shape env
                (with_STATE (set_scanning true) (log LogStarting w)) Hall)
      as (Ht & _ & _ & Hi).
    rewrite Ht. auto.
  - destruct (getURL_ok env); simpl; auto.
Qed.

Lemma step_store_invariant (e : Event) (w : World) :
  store_invariant w -> store_invariant (step e w).
Proof.
  intros [Hst Hfr]. unfold store_invariant, stored in *.
  destruct e as [env msg|env|env id|env i o|env i]; simpl.
  - destruct msg; simpl; auto.
    + destruct (startScanning_shape env w Hfr) as [Ht Hi].
      destruct (startScanning env w) as [w1 [ok|]]; simpl in *;
        rewrite Ht; auto.
    + unfold stopScanning. destruct (negb (scanning (STATE w))); simpl; auto.
      destruct (intervalId (STATE w)) as [[|n]|]; simpl; auto.
    + destruct (storage_alive env); simpl; auto.
    + destruct (storage_alive env); simpl; auto.
  - destruct (startScanning_shape env w Hfr) as [Ht Hi].
    destruct (startScanning env w) as [w1 [ok|]]; simpl in *; rewrite Ht; auto.
  - destruct (bool_decide _); [|auto].
    destruct (scanOnce_shape env w Hfr) as (Ht & _ & _ & Hi).
    rewrite Ht. auto.
  - destruct (pending_starts w !! i) as [fr|]; [|auto].
    set (w1 := with_pending_starts _ w).
    assert (H2 : tt_matches (fst (script_settles o w1)) = tt_matches w /\
                 inflight (fst (script_settles o w1)) = inflight w)
      by (destruct o; auto).
    destruct (script_settles o w1) as [w2 loaded]. simpl in H2.
    destruct H2 as [H2t H2i].
    destruct (startScanning_after_inject_shape env loaded w2) as [Ht Hi];
      [rewrite H2i; assumption|].
    destruct (startScanning_after_inject env loaded w2) as [w3 ok].
    simpl in *. destruct (respond fr); simpl; rewrite Ht, H2t; auto.
  - destruct (inflight w !! i) as [fr|] eqn:Hlk; [|auto].
    assert (Hq : frame_qualified fr).
    { eapply Forall_lookup_1; eassumption. }
    set (w1 := with_inflight (delete i (inflight w)) w).
    destruct (resume_shape env fr w1 Hq) as (w2 & r & Hrun & Hstep & Hi & _ & Hr).
    destruct (park_shape (resume env fr w1) frame_qualified) as (Pt & _ & _ & Pall).
    { rewrite Hrun. simpl. intros fr' [= ->]. now apply Hr. }
    { rewrite Hrun. simpl. rewrite Hi. simpl. now apply Forall_delete. }
    rewrite Pt, Hrun. simpl. split; [|rewrite Hrun in Pall; exact Pall].
    destruct Hstep as [->|(record & -> & Hrec)]; [exact Hst|].
    simpl. apply Forall_app. split; [exact Hst|].
    constructor; [exact Hrec | constructor].
Qed.


(** *** What the pipelines leave alone *)

Lemma control_fields (w w' : World) :
  control w' = control w ->
  faceApiReady (STATE w') = faceApiReady (STATE w) /\
  scripts_injected w' = scripts_injected w /\
  model_loads w' = model_loads w /\
  pending_starts w' = pending_starts w /\
  responses w' = responses w.
Proof. unfold control. intros [= _ _ H1 _ _ H2 H3 H4 H5]. auto. Qed.

Lemma park_control (r : World * outcome (option PipelineFrame)) :
  control (park r) = control (fst r).
Proof. destruct r as [w [[fr|]|]]; reflexivity. Qed.

Lemma resume_control (env : Env) (fr : PipelineFrame) (w : World) :
  control (fst (resume env fr w)) = control w.
Proof.
  destruct fr as [key video d vd|key record]; simpl.
  - unfold processVideo_after_detect, saveMatch. unfold_M.
    destruct (isFemale vd); simpl; [|reflexivity].
    destruct (foundVideoUrl video); simpl; [|reflexivity].
    destruct (storage_alive env); simpl; [|reflexivity].
    destruct (existsb _ _); reflexivity.
  - reflexivity.
Qed.

Lemma scanOnce_control (env : Env) (w : World) :
  control (scanOnce env w) = control w.
Proof.
  unfold scanOnce.
  change (control w) with (control (with_scan_passes (S (scan_passes w)) w)).
  generalize (with_scan_passes (S (scan_passes w)) w). clear w.
  induction (document_videos env) as [|v vs IH]; intros w; simpl; [reflexivity|].
  rewrite IH, park_control.
  destruct (processVideo_shape env v w) as (w1 & r & -> & _ & _ & Hc & _).
  exact Hc.
Qed.

(** *** A pipeline run to its end *)






(** *** Release of the Processing Set entry *)

Lemma added_then_deleted (key : jsstring) (p : gset jsstring) :
  key ∉ ({[key]} ∪ p) ∖ {[key]}.
Proof.
  intros H. apply elem_of_difference in H as [_ H].
  apply H, elem_of_singleton. reflexivity.
Qed.

(** When no step of the pipeline throws, the key the activation added is
    gone from the Processing Set at its end, whichever way it ends. *)
Lemma processVideo_releases_key (env : Env) (video : Video) (w : World)
    (d u : jsstring) :
  isHTMLVideoElement video = true ->
  video_key env video ∉ processing (STATE w) ->
  extractedDescription video = Returns d ->
  foundVideoUrl video = Returns u ->
  storage_alive env = true ->
  video_key env video ∉ processing (STATE (fst (processVideo_to_end env video w))).
Proof.
  intros Hv Hkey Hd Hu Hs.
  unfold processVideo_to_end, processVideo. unfold_M.
  rewrite Hv, Hd. simpl.
  rewrite bool_decide_eq_false_2 by assumption. simpl.
  destruct (isElementInViewport _ _); simpl; [|apply added_then_deleted].
  destruct (isArabic (Some d)); simpl; [|apply added_then_deleted].
  use_detect. simpl.
  unfold processVideo_after_detect, saveMatch. unfold_M.
  rewrite Hu, Hs. simpl.
  destruct (isFemale vd); simpl; [|rewrite HS; simpl; apply added_then_deleted].
  destruct (existsb _ _); simpl; rewrite HS; simpl; apply added_then_deleted.
Qed.

(** An exception in the extraction step or in the store leaves the key
    behind: the [catch] block only logs. *)
Lemma processVideo_throw_keeps_key (env : Env) (video : Video) (w : World) :
  isHTMLVideoElement video = true ->
  video_key env video ∉ processing (STATE w) ->
  isElementInViewport (viewport env) (boundingClientRect video) = true ->
  extractedDescription video = Throws ->
  processVideo_to_end env video w
    = (log LogProcessVideoError
         (with_STATE
            (fun st => set_processing ({[video_key env video]} ∪ processing st) st)
            w),
       Returns None).
Proof.
  intros Hv Hkey Hvis Hd.
  unfold processVideo_to_end, processVideo. unfold_M.
  rewrite Hv, Hd, Hvis. simpl.
  rewrite bool_decide_eq_false_2 by assumption. reflexivity.
Qed.

(** C1 (evaluation at the failing input): a visible video with an Arabic
    description and a positive verdict, processed after the extension
    context was invalidated, so that [chrome.storage.local.get] throws
    inside [saveMatch].  The activation ends in the [catch] block, its key
    is still in the Processing Set, and the next activation for the same
    video returns at once without doing anything. *)
Theorem processVideo_error_keeps_key :
  processVideo_to_end dead_storage_env sample_video ready_World
    = (stuck_World, Returns None) /\
  video_key dead_storage_env sample_video = js "blob:abc" /\
  js "blob:abc" ∈ processing (STATE stuck_World) /\
  console stuck_World = [LogProcessVideoError] /\
  tt_matches stuck_World = None /\
  processVideo_to_end sample_env sample_video stuck_World
    = (stuck_World, Returns None).
Proof.
  split; [vm_compute; reflexivity|].
  split; [reflexivity|].
  split.
  { change (js "blob:abc" ∈ ({[ js "blob:abc" ]} : gset jsstring)).
    apply elem_of_singleton. reflexivity. }
  split; [reflexivity|]. split; [reflexivity|].
  vm_compute. reflexivity.
Qed.

(** ** Classifier initialisation *)

Lemma control_init_state (w w' : World) :
  control w' = control w -> init_state w' = init_state w.
Proof.
  intros H. destruct (control_fields _ _ H) as (H1 & H2 & H3 & H4 & _).
  unfold init_state. congruence.
Qed.

Lemma startScanning_after_inject_init_state (env : Env) (loaded : bool) (w : World) :
  init_state (fst (startScanning_after_inject env loaded w)) = init_state w.
Proof.
  unfold startScanning_after_inject. destruct loaded; simpl; [|reflexivity].
  pose proof (control_init_state _ _
                (scanOnce_control env (with_STATE (set_scanning true) w))) as H.
  unfold init_state in *. simpl in *. exact H.
Qed.

Lemma stopScanning_init_state (w : World) :
  init_state (fst (stopScanning w)) = init_state w.
Proof.
  unfold stopScanning. destruct (negb (scanning (STATE w))); simpl; [reflexivity|].
  destruct (intervalId (STATE w)) as [[|n]|]; reflexivity.
Qed.

Lemma init_state_ready (w w' : World) :
  init_state w' = init_state w ->
  faceApiReady (STATE w) = true ->
  faceApiReady (STATE w') = true /\
  scripts_injected w' = scripts_injected w /\
  (pending_starts w = [] ->
   pending_starts w' = [] /\ model_loads w' = model_loads w).
Proof.
  unfold init_state. intros [= H1 H2 H3 H4] Hr.
  rewrite H1, H2, H3, H4. auto.
Qed.

(** A start request made when the classifier is ready goes through
    without touching the initialisation. *)
Lemma startScanning_ready (env : Env) (w : World) :
  faceApiReady (STATE w) = true ->
  exists ok,
    snd (startScanning env w) = Some ok /\
    init_state (fst (startScanning env w)) = init_state w.
Proof.
  intros Hr. unfold startScanning, injectFaceApi.
  destruct (scanning (STATE w)); [simpl; eauto|].
  change (faceApiReady (STATE (log LogStarting w)))
    with (faceApiReady (STATE w)).
  rewrite Hr.
  pose proof (startScanning_after_inject_init_state env true (log LogStarting w)) as H.
  destruct (startScanning_after_inject env true (log LogStarting w)) as [w2 ok].
  exists ok. split; [reflexivity | exact H].
Qed.

Lemma step_ready (e : Event) (w : World) :
  faceApiReady (STATE w) = true ->
  faceApiReady (STATE (step e w)) = true /\
  scripts_injected (step e w) = scripts_injected w /\
  (pending_starts w = [] ->
   pending_starts (step e w) = [] /\ model_loads (step e w) = model_loads w).
Proof.
  intros Hr.
  destruct e as [env msg|env|env id|env i o|env i]; simpl.
  - destruct msg; simpl; try (apply init_state_ready; [reflexivity|assumption]).
    + destruct (startScanning_ready env w Hr) as (ok & Hok & Hinit).
      destruct (startScanning env w) as [w1 r]. simpl in *. subst r.
      apply init_state_ready; [exact Hinit | assumption].
    + pose proof (stopScanning_init_state w) as Hinit.
      destruct (stopScanning w) as [w1 ok]. simpl in *.
      apply init_state_ready; [exact Hinit | assumption].
    + destruct (storage_alive env);
        apply init_state_ready; try reflexivity; assumption.
    + destruct (storage_alive env);
        apply init_state_ready; try reflexivity; assumption.
  - destruct (startScanning_ready env w Hr) as (ok & Hok & Hinit).
    destruct (startScanning env w) as [w1 r]. simpl in *. subst r.
    apply init_state_ready; [exact Hinit | assumption].
  - destruct (bool_decide _); [|auto].
    apply init_state_ready; [|assumption].
    apply control_init_state, scanOnce_control.
  - destruct (pending_starts w !! i) as [fr|] eqn:Hlk; [|auto].
    set (w1 := with_pending_starts (delete i (pending_starts w)) w).
    assert (H2 : faceApiReady (STATE (fst (script_settles o w1))) = true /\
                 scripts_injected (fst (script_settles o w1)) = scripts_injected w)
      by (destruct o; simpl; auto).
    destruct (script_settles o w1) as [w2 loaded]. simpl in H2.
    destruct H2 as [H2r H2s].
    pose proof (startScanning_after_inject_init_state env loaded w2) as Hinit.
    destruct (startScanning_after_inject env loaded w2) as [w3 ok].
    simpl in Hinit. unfold init_state in Hinit.
    injection Hinit as H3r H3s H3m H3p.
    assert (Hgoal : faceApiReady (STATE w3) = true /\
                    scripts_injected w3 = scripts_injected w)
      by (split; congruence).
    split; [|split].
    + destruct (respond fr); simpl; apply Hgoal.
    + destruct (respond fr); simpl; apply Hgoal.
    + intros Hp. rewrite Hp in Hlk. discriminate.
  - destruct (inflight w !! i) as [fr|]; [|auto].
    apply init_state_ready; [|assumption].
    apply control_init_state.
    rewrite park_control, resume_control. reflexivity.
Qed.

Lemma run_ready (es : list Event) (w : World) :
  faceApiReady (STATE w) = true ->
  faceApiReady (STATE (run es w)) = true /\
  scripts_injected (run es w) = scripts_injected w /\
  (pending_starts w = [] ->
   pending_starts (run es w) = [] /\ model_loads (run es w) = model_loads w).
Proof.
  revert w. induction es as [|e es IH]; intros w Hr; simpl; [auto|].
  destruct (step_ready e w Hr) as (H1 & H2 & H3).
  destruct (IH _ H1) as (I1 & I2 & I3).
  split; [assumption|]. split; [congruence|].
  intros Hp. destruct (H3 Hp) as [H3p H3m].
  destruct (I3 H3p) as [I3p I3m]. split; congruence.
Qed.




(** ** Start requests that fail *)

Lemma startScanning_pending_starts (env : Env) (w : World) :
  pending_starts (fst (startScanning env w)) = pending_starts w.
Proof.
  unfold startScanning, injectFaceApi.
  destruct (scanning (STATE w)); [reflexivity|].
  change (faceApiReady (STATE (log LogStarting w)))
    with (faceApiReady (STATE w)).
  destruct (faceApiReady (STATE w)).
  - pose proof (startScanning_after_inject_init_state env true
                  (log LogStarting w)) as H.
    destruct (startScanning_after_inject env true (log LogStarting w)).
    unfold init_state in H. simpl in *. congruence.
  - destruct (getURL_ok env); reflexivity.
Qed.

(** The uninterrupted handling of [START_SCAN] is what the event loop does
    when the script element settles right after the message and no other
    start is pending. *)
Lemma onMessage_START_SCAN_to_end_run (env : Env) (o : ScriptEvent) (w : World) :
  pending_starts w = [] ->
  run [MessageArrives env START_SCAN; ScriptSettles env 0 o] w
    = onMessage_START_SCAN_to_end env o w.
Proof.
  intros Hp. unfold run, onMessage_START_SCAN_to_end, startScanning_to_end.
  cbn [fold_left step onMessage].
  pose proof (startScanning_pending_starts env w) as Hp1.
  rewrite Hp in Hp1.
  destruct (startScanning env w) as [w1 [ok|]]; simpl in Hp1.
  - unfold startResponse, sendResponse. simpl. rewrite Hp1. reflexivity.
  - destruct w1. simpl in Hp1. subst. simpl.
    destruct o; reflexivity.
Qed.

(** Whatever else is going on, a script element that settles without
    both models loaded leaves [STATE], the timers, the scan pass count,
    the suspended pipelines and the store as they are. *)
Lemma failed_script_changes_nothing (env : Env) (i : nat) (o : ScriptEvent)
    (w : World) :
  o <> ModelsLoaded ->
  let w' := step (ScriptSettles env i o) w in
  STATE w' = STATE w /\ intervals w' = intervals w /\
  scan_passes w' = scan_passes w /\ inflight w' = inflight w /\
  tt_matches w' = tt_matches w.
Proof.
  intros Ho. simpl. destruct (pending_starts w !! i) as [fr|]; [|auto].
  destruct o; try congruence; simpl; destruct (respond fr); simpl; auto.
Qed.

(** C5: a start request made while idle whose classifier initialisation
    fails returns [false] and leaves [STATE], the timers, the scan pass
    count, the suspended pipelines and the store as they were; the
    response to [START_SCAN] is [{ok: false, scanning: false}]. *)
Theorem start_aborts_when_initialisation_fails
    (env : Env) (o : ScriptEvent) (w : World) :
  scanning (STATE w) = false ->
  initialisation_fails env o w = true ->
  exists w',
    startScanning_to_end env o w = (w', false) /\
    STATE w' = STATE w /\
    scanning (STATE w') = false /\
    intervalId (STATE w') = intervalId (STATE w) /\
    intervals w' = intervals w /\
    next_interval w' = next_interval w /\
    scan_passes w' = scan_passes w /\
    classifier_calls w' = classifier_calls w /\
    inflight w' = inflight w /\
    tt_matches w' = tt_matches w /\
    onMessage_START_SCAN_to_end env o w
      = sendResponse (StartResponse false false false) w'.
Proof.
  intros Hs Hf. unfold initialisation_fails in Hf.
  apply andb_true_iff in Hf as [Hr Hf]. apply negb_true_iff in Hr.
  unfold onMessage_START_SCAN_to_end, startScanning_to_end, startScanning,
    injectFaceApi, startResponse.
  rewrite Hs. simpl. rewrite Hr.
  destruct (getURL_ok env); simpl in *.
  - destruct o; try discriminate; simpl;
      eexists; (split; [reflexivity|]); simpl; rewrite ?Hs, ?Hr; repeat split.
  - eexists; (split; [reflexivity|]); simpl; rewrite ?Hs, ?Hr; repeat split.
Qed.

Lemma start_aborts_when_initialisation_fails_witness :
  exists w',
    startScanning_to_end sample_env DetectorModelFails initial_World = (w', false) /\
    STATE w' = initial_STATE /\
    intervals w' = [] /\
    scan_passes w' = 0%nat /\
    onMessage_START_SCAN_to_end sample_env DetectorModelFails initial_World
      = sendResponse (StartResponse false false false) w'.
Proof.
  destruct (start_aborts_when_initialisation_fails
              sample_env DetectorModelFails initial_World eq_refl eq_refl)
    as (w' & H1 & H2 & _ & _ & H3 & _ & H4 & _ & _ & _ & H5).
  exists w'. repeat split; assumption.
Defined.

(** ** Scenarios *)

(** A description without Arabic letters: the classifier is not called and
    nothing is stored. *)
Example english_description_is_filtered :
  let video :=
    {| isHTMLVideoElement := true; currentSrc := js "blob:abc"; src := [];
       dataset_scanKey := None; boundingClientRect := sample_rect;
       extractedDescription := Returns (js "great video");
       foundVideoUrl := Returns (js "https://www.tiktok.com/@u/video/1");
       videoWidth := 576; videoHeight := 1024; video_poster := [];
       canvasContext := true; drawImage_ok := true;
       detectAllFaces := detectAllFaces sample_video |} in
  processVideo_to_end sample_env video ready_World = (ready_World, Returns None).
Proof. vm_compute. reflexivity. Qed.

(** The same element twice in one pass: the second activation finds the
    key in the Processing Set and stops before the classifier. *)
Example second_activation_aborts :
  let env :=
    {| viewport := sample_viewport; location_href := location_href sample_env;
       Date_toISOString := Date_toISOString sample_env;
       Math_random_key := js "k3j2"; window_faceapi := true;
       storage_alive := true; getURL_ok := true;
       document_videos := [sample_video; sample_video] |} in
  classifier_calls (scanOnce env ready_World) = 1%nat /\
  length (inflight (scanOnce env ready_World)) = 1%nat.
Proof. vm_compute. split; reflexivity. Qed.

(** Clear, then list: the response carries the empty sequence. *)
Example clear_then_list :
  responses
    (run [MessageArrives sample_env CLEAR_LIST;
          MessageArrives sample_env GET_MATCHES]
       (world_with [sample_record "https://t/video/1" "a"]))
  = [ClearResponse true; MatchesResponse true []].
Proof. reflexivity. Qed.

(** Start while idle with the classifier loading normally, then stop. *)
Example start_then_stop :
  responses
    (run [MessageArrives sample_env START_SCAN;
          ScriptSettles sample_env 0 ModelsLoaded;
          MessageArrives sample_env STOP_SCAN] initial_World)
  = [StartResponse true true true; StopResponse true false] /\
  intervals
    (run [MessageArrives sample_env START_SCAN;
          ScriptSettles sample_env 0 ModelsLoaded;
          MessageArrives sample_env STOP_SCAN] initial_World) = [].
Proof. vm_compute. split; reflexivity. Qed.

(** * Further properties of the scan loop *)

(** ** One pass and the Processing Set *)

(** [processVideo] up to its first suspension, case by case. *)
Lemma processVideo_cases (env : Env) (video : Video) (w : World) :
  let key := video_key env video in
  let admitted :=
    with_STATE (fun st => set_processing ({[key]} ∪ processing st) st) w in
  let released :=
    with_STATE (fun st => set_processing (processing st ∖ {[key]}) st) admitted in
  processVideo env video w =
    if negb (isHTMLVideoElement video) then (w, Returns None)
    else if bool_decide (key ∈ processing (STATE w)) then (w, Returns None)
    else if negb (isElementInViewport (viewport env) (boundingClientRect video))
    then (released, Returns None)
    else
      match extractedDescription video with
      | Throws => (log LogProcessVideoError admitted, Returns None)
      | Returns d =>
          if negb (isArabic (Some d)) then (released, Returns None)
          else
            match detectFemaleOnFrame env video admitted with
            | (w2, Returns vd) =>
                (w2, Returns (Some (AwaitingDetect key video d vd)))
            | (w2, Throws) => (log LogProcessVideoError w2, Returns None)
            end
      end.
Proof.
  unfold processVideo. unfold_M.
  destruct (isHTMLVideoElement video); simpl; [|reflexivity].
  destruct (bool_decide _); simpl; [reflexivity|].
  destruct (isElementInViewport _ _); simpl; [|reflexivity].
  destruct (extractedDescription video) as [d|]; simpl; [|reflexivity].
  destruct (isArabic (Some d)); simpl; [|reflexivity].
  destruct (detectFemaleOnFrame env video _) as [w2 [vd|]]; reflexivity.
Qed.

Lemma detectFemaleOnFrame_calls (env : Env) (video : Video) (w : World) :
  (classifier_calls (fst (detectFemaleOnFrame env video w))
   <= S (classifier_calls w))%nat.
Proof.
  rewrite detectFemaleOnFrame_cases.
  repeat match goal with
         | |- context [if ?b then _ else _] => destruct b
         | |- context [match ?o with Returns _ => _ | Throws => _ end] => destruct o
         | |- context [match ?o with Some _ => _ | None => _ end] => destruct o
         end; simpl; lia.
Qed.

(** What one activation does to the Processing Set, the classifier count
    and the suspended frames, up to its first suspension. *)
Lemma processVideo_admission (env : Env) (video : Video) (w : World) :
  exists w' r,
    processVideo env video w = (w', Returns r) /\
    processing (STATE w) ⊆ processing (STATE w') /\
    inflight w' = inflight w /\
    match r with
    | Some fr =>
        frame_key fr = video_key env video /\
        (frame_key fr ∉ processing (STATE w)) /\
        (frame_key fr ∈ processing (STATE w')) /\
        (classifier_calls w' <= S (classifier_calls w))%nat
    | None => classifier_calls w' = classifier_calls w
    end.
Proof.
  rewrite processVideo_cases. cbv zeta.
  destruct (isHTMLVideoElement video); simpl;
    [|eexists _, _; repeat split; set_solver].
  destruct (bool_decide _) eqn:Hhas; simpl;
    [eexists _, _; repeat split; set_solver|].
  apply bool_decide_eq_false in Hhas.
  destruct (isElementInViewport _ _); simpl;
    [|eexists _, _; split; [reflexivity|]; simpl; repeat split; set_solver].
  destruct (extractedDescription video) as [d|]; simpl;
    [|eexists _, _; split; [reflexivity|]; simpl; repeat split; set_solver].
  destruct (isArabic (Some d)); simpl;
    [|eexists _, _; split; [reflexivity|]; simpl; repeat split; set_solver].
  pose proof (detectFemaleOnFrame_calls env video
    (with_STATE
       (fun st => set_processing ({[video_key env video]} ∪ processing st) st) w))
    as Hcalls.
  use_detect. simpl in Hcalls. rewrite Hrun in Hcalls. simpl in Hcalls.
  eexists _, _. split; [reflexivity|]. rewrite HS, Hi. simpl.
  repeat split; try assumption; set_solver.
Qed.

(** X1: the frames one scan pass suspends have pairwise distinct keys, none
    of which was in the Processing Set before the pass and all of which
    are in it afterwards; the classifier is called at most once per
    suspended frame. *)
Theorem scanOnce_exclusive (env : Env) (w : World) :
  exists new,
    inflight (scanOnce env w) = inflight w ++ new /\
    NoDup (map frame_key new) /\
    (forall fr, In fr new ->
       (frame_key fr ∉ processing (STATE w)) /\
       (frame_key fr ∈ processing (STATE (scanOnce env w))) /\
       exists video, In video (document_videos env) /\
                     frame_key fr = video_key env video) /\
    processing (STATE w) ⊆ processing (STATE (scanOnce env w)) /\
    (classifier_calls (scanOnce env w) <= classifier_calls w + length new)%nat.
Proof.
  unfold scanOnce.
  change (inflight w) with (inflight (with_scan_passes (S (scan_passes w)) w)).
  change (processing (STATE w))
    with (processing (STATE (with_scan_passes (S (scan_passes w)) w))).
  change (classifier_calls w)
    with (classifier_calls (with_scan_passes (S (scan_passes w)) w)).
  generalize (with_scan_passes (S (scan_passes w)) w). clear w.
  induction (document_videos env) as [|v vs IH]; intros w; simpl.
  - exists []. rewrite app_nil_r. simpl.
    split; [reflexivity|]. split; [constructor|].
    split; [intros fr []|]. split; [reflexivity | lia].
  - destruct (processVideo_admission env v w) as (w1 & r & Hrun & Hsub & Hi & Hr).
    rewrite Hrun.
    destruct r as [fr|]; simpl.
    + destruct Hr as (Hkey & Hnew & Hin & Hcalls).
      destruct (IH (with_inflight (inflight w1 ++ [fr]) w1))
        as (new & Hfl & Hnd & Hall & Hsub' & Hc).
      simpl in *.
      exists (fr :: new).
      split; [rewrite Hfl, Hi, <- app_assoc; reflexivity|]. split.
      { constructor; [|assumption]. intros Hmem.
        apply list_elem_of_In, in_map_iff in Hmem as (fr' & Heq & Hfr').
        destruct (Hall fr' Hfr') as (Hnot & _). rewrite Heq in Hnot.
        contradiction. }
      split.
      { intros fr' [<-|Hfr'].
        - split; [assumption|]. split; [apply Hsub', Hin|]. exists v. auto.
        - destruct (Hall fr' Hfr') as (Hnot & Hyes & video & Hv & Hk).
          split; [intros Hmem; apply Hnot, Hsub, Hmem|].
          split; [assumption|]. exists video. auto. }
      split; [intros k Hk; apply Hsub', Hsub, Hk | simpl; lia].
    + destruct (IH w1) as (new & Hfl & Hnd & Hall & Hsub' & Hc).
      exists new. split; [rewrite Hfl, Hi; reflexivity|].
      split; [assumption|]. split.
      { intros fr' Hfr'.
        destruct (Hall fr' Hfr') as (Hnot & Hyes & video & Hv & Hk).
        split; [intros Hmem; apply Hnot, Hsub, Hmem|].
        split; [assumption|]. exists video. auto. }
      split; [intros k Hk; apply Hsub', Hsub, Hk | lia].
Qed.

(** X2: the classifier is only called for a video element that is not in
    flight already, lies in the viewport and has a description with an
    Arabic character. *)
Theorem classifier_called_only_after_filters (env : Env) (video : Video)
    (w : World) :
  classifier_calls (fst (processVideo env video w)) <> classifier_calls w ->
  isHTMLVideoElement video = true /\
  (video_key env video ∉ processing (STATE w)) /\
  isElementInViewport (viewport env) (boundingClientRect video) = true /\
  exists d, extractedDescription video = Returns d /\ isArabic (Some d) = true.
Proof.
  rewrite processVideo_cases. cbv zeta.
  destruct (isHTMLVideoElement video); simpl; [|congruence].
  destruct (bool_decide _) eqn:Hhas; simpl; [congruence|].
  apply bool_decide_eq_false in Hhas.
  destruct (isElementInViewport _ _); simpl; [|congruence].
  destruct (extractedDescription video) as [d|]; simpl; [|congruence].
  destruct (isArabic (Some d)) eqn:Hd; simpl; [|congruence].
  intros _. repeat split; try assumption. eauto.
Qed.

Lemma classifier_called_only_after_filters_witness :
  isElementInViewport (viewport sample_env) (boundingClientRect sample_video) = true /\
  exists d, extractedDescription sample_video = Returns d /\ isArabic (Some d) = true.
Proof.
  destruct (classifier_called_only_after_filters sample_env sample_video ready_World)
    as (_ & _ & Hvis & Hd).
  - vm_compute. discriminate.
  - split; assumption.
Defined.

(** ** Timers *)

Lemma control_timer_fields (w w' : World) :
  control w' = control w ->
  scanning (STATE w') = scanning (STATE w) /\
  intervalId (STATE w') = intervalId (STATE w) /\
  intervals w' = intervals w /\
  next_interval w' = next_interval w.
Proof. unfold control. intros [= H1 H2 _ H3 H4 _ _ _ _]. auto. Qed.

Lemma timers_ok_transfer (w w' : World) :
  scanning (STATE w') = scanning (STATE w) ->
  intervalId (STATE w') = intervalId (STATE w) ->
  intervals w' = intervals w ->
  next_interval w' = next_interval w ->
  timers_ok w -> timers_ok w'.
Proof. unfold timers_ok. intros -> -> -> ->. auto. Qed.

Lemma orphan_timer_transfer (id : nat) (w w' : World) :
  intervalId (STATE w') = intervalId (STATE w) ->
  intervals w' = intervals w ->
  next_interval w' = next_interval w ->
  orphan_timer id w -> orphan_timer id w'.
Proof. unfold orphan_timer. intros -> -> ->. auto. Qed.

Lemma scanOnce_counts (env : Env) (w : World) :
  tt_matches (scanOnce env w) = tt_matches w /\
  scan_passes (scanOnce env w) = S (scan_passes w).
Proof.
  assert (H : forall vs w0,
            tt_matches (fold_left (fun w v => park (processVideo env v w)) vs w0)
              = tt_matches w0 /\
            scan_passes (fold_left (fun w v => park (processVideo env v w)) vs w0)
              = scan_passes w0).
  { induction vs as [|v vs IH]; intros w0; simpl; [auto|].
    destruct (IH (park (processVideo env v w0))) as [-> ->].
    destruct (processVideo_shape env v w0) as (w1 & r & -> & Ht & _ & _ & Hp & _).
    destruct r; simpl; auto. }
  unfold scanOnce.
  destruct (H (document_videos env) (with_scan_passes (S (scan_passes w)) w))
    as [-> ->].
  auto.
Qed.

(** What a start that goes through does to the timers. *)
Lemma startScanning_after_inject_loaded (env : Env) (w : World) :
  let w' := fst (startScanning_after_inject env true w) in
  snd (startScanning_after_inject env true w) = true /\
  scanning (STATE w') = true /\
  faceApiReady (STATE w') = faceApiReady (STATE w) /\
  intervalId (STATE w') = Some (next_interval w) /\
  intervals w' = intervals w ++ [next_interval w] /\
  next_interval w' = S (next_interval w) /\
  scan_passes w' = S (scan_passes w) /\
  tt_matches w' = tt_matches w /\
  responses w' = responses w /\
  pending_starts w' = pending_starts w.
Proof.
  unfold startScanning_after_inject. simpl.
  set (w1 := with_STATE (set_scanning true) w).
  destruct (control_timer_fields _ _ (scanOnce_control env w1))
    as (Hs & _ & Hi & Hn).
  destruct (control_fields _ _ (scanOnce_control env w1))
    as (Hr & _ & _ & Hp & Hresp).
  destruct (scanOnce_counts env w1) as [Ht Hpass].
  rewrite Hs, Hi, Hn, Hr, Hp, Hresp, Ht, Hpass. repeat split.
Qed.

Lemma filter_other_id (id : nat) (l : list nat) :
  ~ In id l -> filter (fun i => i ≠ id) l = l.
Proof.
  induction l as [|x l IH]; intros Hn; [reflexivity|].
  rewrite filter_cons. destruct (decide (x ≠ id)) as [Hx|Hx].
  - rewrite IH; [reflexivity|]. intros H. apply Hn. now right.
  - exfalso. apply Hn. left. destruct (decide (x = id)); [assumption|contradiction].
Qed.

Lemma in_filter_other_id (id id' : nat) (l : list nat) :
  In id' (filter (fun i => i ≠ id) l) <-> In id' l /\ id' <> id.
Proof.
  rewrite <- !list_elem_of_In, list_elem_of_filter. tauto.
Qed.

Lemma startScanning_after_inject_timers (env : Env) (loaded : bool) (w : World) :
  timers_ok w -> timers_ok (fst (startScanning_after_inject env loaded w)).
Proof.
  intros Hok. destruct loaded; [|exact Hok].
  destruct (startScanning_after_inject_loaded env w)
    as (_ & Hs & _ & Hid & Hi & Hn & _).
  destruct Hok as (Hpos & Hb & Hnd & Hh & Hsc).
  unfold timers_ok. rewrite Hs, Hid, Hi, Hn. repeat split.
  - lia.
  - apply in_app_or in H as [H|[<-|[]]]; [apply Hb in H|]; lia.
  - apply in_app_or in H as [H|[<-|[]]]; [apply Hb in H|]; lia.
  - apply NoDup_app. split; [assumption|]. split; [|apply NoDup_singleton].
    intros x Hx Hx'. apply list_elem_of_In in Hx.
    apply list_elem_of_singleton in Hx'. subst x. apply Hb in Hx. lia.
  - intros id [= <-]. apply in_or_app. right. now left.
  - discriminate.
Qed.

Lemma stopScanning_timers (w : World) :
  timers_ok w -> timers_ok (fst (stopScanning w)).
Proof.
  intros Hok. unfold stopScanning.
  destruct (scanning (STATE w)) eqn:Hs; simpl; [|exact Hok].
  destruct Hok as (Hpos & Hb & Hnd & Hh & Hsc).
  assert (Hgen : forall l, (forall id, In id l -> In id (intervals w)) ->
                           NoDup l ->
            timers_ok
              (with_STATE
                 (fun st => set_processing ∅ (set_scanning false (set_intervalId None st)))
                 (with_intervals l (next_interval w) (log LogStopping w)))).
  { intros l Hl Hndl. unfold timers_ok. simpl.
    split; [assumption|]. split; [intros id Hin; apply Hb, Hl, Hin|].
    split; [assumption|]. split; [discriminate|].
    split; [discriminate | congruence]. }
  destruct (intervalId (STATE w)) as [[|n]|]; simpl.
  - apply (Hgen (intervals w)); auto.
  - apply Hgen.
    + intros id Hin. now apply in_filter_other_id in Hin.
    + now apply NoDup_filter.
  - apply (Hgen (intervals w)); auto.
Qed.

Lemma step_timers_ok (e : Event) (w : World) :
  timers_ok w -> timers_ok (step e w).
Proof.
  intros Hok.
  destruct e as [env msg|env|env id|env i o|env i]; simpl.
  - destruct msg; simpl; try exact Hok.
    + unfold startScanning, injectFaceApi.
      destruct (scanning (STATE w)); simpl; [exact Hok|].
      destruct (faceApiReady (STATE w)); simpl.
      * pose proof (startScanning_after_inject_timers env true
                      (log LogStarting w) Hok) as H.
        unfold startScanning_after_inject in H. simpl in H. exact H.
      * destruct (getURL_ok env); simpl; exact Hok.
    + pose proof (stopScanning_timers w Hok) as H.
      destruct (stopScanning w) as [w1 ok]. exact H.
    + destruct (storage_alive env); exact Hok.
    + destruct (storage_alive env); exact Hok.
  - unfold startScanning, injectFaceApi.
    destruct (scanning (STATE w)); simpl; [exact Hok|].
    destruct (faceApiReady (STATE w)); simpl.
    + pose proof (startScanning_after_inject_timers env true
                    (log LogStarting w) Hok) as H.
      unfold startScanning_after_inject in H. simpl in H. exact H.
    + destruct (getURL_ok env); simpl; exact Hok.
  - destruct (bool_decide _); [|exact Hok].
    destruct (control_timer_fields _ _ (scanOnce_control env w))
      as (H1 & H2 & H3 & H4).
    exact (timers_ok_transfer _ _ H1 H2 H3 H4 Hok).
  - destruct (pending_starts w !! i) as [fr|]; [|exact Hok].
    set (w1 := with_pending_starts (delete i (pending_starts w)) w).
    assert (H2 : timers_ok (fst (script_settles o w1))) by (destruct o; exact Hok).
    destruct (script_settles o w1) as [w2 loaded]. simpl in H2.
    pose proof (startScanning_after_inject_timers env loaded w2 H2) as H3.
    destruct (startScanning_after_inject env loaded w2) as [w3 ok].
    simpl in H3. destruct (respond fr); exact H3.
  - destruct (inflight w !! i) as [fr|]; [|exact Hok].
    set (w1 := with_inflight (delete i (inflight w)) w).
    assert (Hc : control (park (resume env fr w1)) = control w).
    { rewrite park_control, resume_control. reflexivity. }
    destruct (control_timer_fields _ _ Hc) as (H1 & H2 & H3 & H4).
    exact (timers_ok_transfer _ _ H1 H2 H3 H4 Hok).
Qed.

Lemma run_timers_ok (es : list Event) (w : World) :
  timers_ok w -> timers_ok (run es w).
Proof.
  revert w. induction es as [|e es IH]; intros w Hok; simpl; [assumption|].
  apply IH. now apply step_timers_ok.
Qed.

Lemma initial_timers_ok : timers_ok initial_World.
Proof.
  unfold timers_ok. simpl.
  split; [lia|]. split; [intros id []|]. split; [constructor|].
  split; [discriminate|]. split; [discriminate | congruence].
Qed.

(** X6: in every world the event loop reaches from the initial one, timer
    identifiers are positive and pairwise distinct, the handle in
    [STATE.intervalId] names an armed timer, and a handle is held exactly
    when [STATE.scanning] is set. *)
Theorem timers_well_kept (es : list Event) :
  timers_ok (run es initial_World).
Proof.
  revert es.
  assert (H : forall es w, timers_ok w -> timers_ok (run es w)).
  { induction es as [|e es IH]; intros w Hok; simpl; [assumption|].
    apply IH. now apply step_timers_ok. }
  intros es. apply H. exact initial_timers_ok.
Qed.

Lemma startScanning_after_inject_orphan (env : Env) (loaded : bool) (id : nat)
    (w : World) :
  orphan_timer id w ->
  orphan_timer id (fst (startScanning_after_inject env loaded w)).
Proof.
  intros Ho. destruct loaded; [|exact Ho].
  destruct (startScanning_after_inject_loaded env w)
    as (_ & _ & _ & Hid & Hi & Hn & _).
  destruct Ho as (Hin & Hne & Hlt).
  unfold orphan_timer.
  split; [rewrite Hi; apply in_or_app; now left|].
  split; [rewrite Hid; intros [= Heq]; lia | lia].
Qed.

Lemma stopScanning_orphan (id : nat) (w : World) :
  orphan_timer id w -> orphan_timer id (fst (stopScanning w)).
Proof.
  intros Ho. unfold stopScanning.
  destruct (scanning (STATE w)); simpl; [|exact Ho].
  destruct Ho as (Hin & Hne & Hlt). unfold orphan_timer.
  destruct (intervalId (STATE w)) as [[|n]|]; simpl;
    (split; [|split; [discriminate | assumption]]); try assumption.
  apply in_filter_other_id. split; [assumption | congruence].
Qed.

Lemma step_orphan_timer (id : nat) (e : Event) (w : World) :
  orphan_timer id w -> orphan_timer id (step e w).
Proof.
  intros Ho.
  destruct e as [env msg|env|env id'|env i o|env i]; simpl.
  - destruct msg; simpl; try exact Ho.
    + unfold startScanning, injectFaceApi.
      destruct (scanning (STATE w)); simpl; [exact Ho|].
      destruct (faceApiReady (STATE w)); simpl.
      * pose proof (startScanning_after_inject_orphan env true id
                      (log LogStarting w) Ho) as H.
        unfold startScanning_after_inject in H. simpl in H. exact H.
      * destruct (getURL_ok env); simpl; exact Ho.
    + pose proof (stopScanning_orphan id w Ho) as H.
      destruct (stopScanning w) as [w1 ok]. exact H.
    + destruct (storage_alive env); exact Ho.
    + destruct (storage_alive env); exact Ho.
  - unfold startScanning, injectFaceApi.
    destruct (scanning (STATE w)); simpl; [exact Ho|].
    destruct (faceApiReady (STATE w)); simpl.
    + pose proof (startScanning_after_inject_orphan env true id
                    (log LogStarting w) Ho) as H.
      unfold startScanning_after_inject in H. simpl in H. exact H.
    + destruct (getURL_ok env); simpl; exact Ho.
  - destruct (bool_decide _); [|exact Ho].
    destruct (control_timer_fields _ _ (scanOnce_control env w))
      as (_ & H2 & H3 & H4).
    exact (orphan_timer_transfer _ _ _ H2 H3 H4 Ho).
  - destruct (pending_starts w !! i) as [fr|]; [|exact Ho].
    set (w1 := with_pending_starts (delete i (pending_starts w)) w).
    assert (H2 : orphan_timer id (fst (script_settles o w1)))
      by (destruct o; exact Ho).
    destruct (script_settles o w1) as [w2 loaded]. simpl in H2.
    pose proof (startScanning_after_inject_orphan env loaded id w2 H2) as H3.
    destruct (startScanning_after_inject env loaded w2) as [w3 ok].
    simpl in H3. destruct (respond fr); exact H3.
  - destruct (inflight w !! i) as [fr|]; [|exact Ho].
    set (w1 := with_inflight (delete i (inflight w)) w).
    assert (Hc : control (park (resume env fr w1)) = control w).
    { rewrite park_control, resume_control. reflexivity. }
    destruct (control_timer_fields _ _ Hc) as (_ & H2 & H3 & H4).
    exact (orphan_timer_transfer _ _ _ H2 H3 H4 Ho).
Qed.

(** X7: a start request that completes while a timer handle is held (a
    second start whose script settles after the first one went through)
    arms a new timer and overwrites the handle: the earlier timer stays
    armed with no handle left to clear it. *)
Theorem second_start_orphans_timer (env : Env) (id : nat) (w : World) :
  timers_ok w ->
  intervalId (STATE w) = Some id ->
  let w' := fst (startScanning_after_inject env true w) in
  orphan_timer id w' /\
  intervals w' = intervals w ++ [next_interval w] /\
  intervalId (STATE w') = Some (next_interval w).
Proof.
  intros Hok Hid.
  destruct (startScanning_after_inject_loaded env w)
    as (_ & _ & _ & Hid' & Hi & Hn & _).
  destruct Hok as (_ & Hb & _ & Hh & _).
  pose proof (Hb id (Hh id Hid)) as Hlt.
  cbv zeta. unfold orphan_timer.
  split; [|split; assumption].
  split; [rewrite Hi; apply in_or_app; left; now apply Hh|].
  split; [rewrite Hid'; intros [= Heq]; lia | lia].
Qed.

Lemma second_start_orphans_timer_witness :
  let w := run [AutoStartFires sample_env;
                MessageArrives sample_env START_SCAN;
                ScriptSettles sample_env 0 ModelsLoaded] initial_World in
  orphan_timer 1 (fst (startScanning_after_inject sample_env true w)) /\
  intervals (fst (startScanning_after_inject sample_env true w)) = [1; 2]%nat.
Proof.
  intros w.
  destruct (second_start_orphans_timer sample_env 1 w) as (H1 & H2 & _).
  - apply run_timers_ok, initial_timers_ok.
  - reflexivity.
  - split; [exact H1|]. rewrite H2. reflexivity.
Defined.

(** X8: an armed timer whose identifier is not the one in
    [STATE.intervalId] is never cleared: after any sequence of events,
    stop requests included, it is still armed, and each of its ticks runs
    another scan pass. *)
Theorem orphan_timer_never_cleared (id : nat) (es : list Event) (env : Env)
    (w : World) :
  orphan_timer id w ->
  In id (intervals (run es w)) /\
  scan_passes (step (IntervalFires env id) (run es w)) = S (scan_passes (run es w)).
Proof.
  intros Ho.
  assert (H : orphan_timer id (run es w)).
  { revert w Ho. induction es as [|e es IH]; intros w Ho; simpl; [assumption|].
    apply IH. now apply step_orphan_timer. }
  destruct H as (Hin & _). split; [assumption|].
  simpl. rewrite bool_decide_eq_true_2 by (now apply list_elem_of_In).
  apply scanOnce_counts.
Qed.

Lemma orphan_timer_never_cleared_witness :
  let w := run concurrent_starts initial_World in
  In 1%nat (intervals (run [MessageArrives sample_env STOP_SCAN] w)) /\
  scanning (STATE (run [MessageArrives sample_env STOP_SCAN] w)) = false /\
  scan_passes
    (step (IntervalFires sample_env 1)
       (run [MessageArrives sample_env STOP_SCAN] w))
  = S (scan_passes (run [MessageArrives sample_env STOP_SCAN] w)).
Proof.
  intros w.
  destruct (orphan_timer_never_cleared 1 [MessageArrives sample_env STOP_SCAN]
              sample_env w) as [H1 H2].
  - unfold orphan_timer. vm_compute. repeat split; [auto | discriminate | lia].
  - split; [exact H1|]. split; [reflexivity | exact H2].
Defined.

(** ** Start and stop, continued *)

Lemma start_from_idle_succeeds_helper (env : Env) (o : ScriptEvent) (w : World) :
  scanning (STATE w) = false ->
  initialisation_succeeds env o w = true ->
  exists w',
    startScanning_to_end env o w = (w', true) /\
    scanning (STATE w') = true /\
    intervalId (STATE w') = Some (next_interval w) /\
    intervals w' = intervals w ++ [next_interval w] /\
    tt_matches w' = tt_matches w.
Proof.
  intros Hs Hok. unfold initialisation_succeeds in Hok.
  unfold startScanning_to_end, startScanning, injectFaceApi.
  rewrite Hs.
  change (faceApiReady (STATE (log LogStarting w)))
    with (faceApiReady (STATE w)).
  destruct (faceApiReady (STATE w)) eqn:Hr.
  - destruct (startScanning_after_inject_loaded env (log LogStarting w))
      as (Hres & H1 & _ & H3 & H4 & _ & _ & H6 & _).
    destruct (startScanning_after_inject env true (log LogStarting w))
      as [w' ok]. simpl in *. subst ok.
    exists w'. repeat split; assumption.
  - simpl in Hok. apply andb_true_iff in Hok as [Hg Ho].
    rewrite Hg. destruct o; try discriminate.
    unfold script_settles. cbv beta iota zeta.
    set (w1 := log LogFaceApiLoaded _).
    destruct (startScanning_after_inject_loaded env w1)
      as (Hres & H1 & _ & H3 & H4 & _ & _ & H6 & _).
    destruct (startScanning_after_inject env true w1) as [w' ok].
    subst w1. simpl in *. subst ok.
    exists w'. repeat split; assumption.
Qed.

(** X9: a start request made while idle whose initialisation goes through
    returns [true], sets [STATE.scanning], runs exactly one scan pass at
    once, arms exactly one new timer and keeps its handle; the store is
    not touched and the response is [{ok: true, scanning: true,
    faceApiReady: true}]. *)
Theorem start_from_idle_succeeds (env : Env) (o : ScriptEvent) (w : World) :
  scanning (STATE w) = false ->
  initialisation_succeeds env o w = true ->
  exists w',
    startScanning_to_end env o w = (w', true) /\
    scanning (STATE w') = true /\
    faceApiReady (STATE w') = true /\
    intervalId (STATE w') = Some (next_interval w) /\
    intervals w' = intervals w ++ [next_interval w] /\
    scan_passes w' = S (scan_passes w) /\
    tt_matches w' = tt_matches w /\
    responses (onMessage_START_SCAN_to_end env o w)
      = responses w ++ [StartResponse true true true].
Proof.
  intros Hs Hok. unfold initialisation_succeeds in Hok.
  unfold onMessage_START_SCAN_to_end, startScanning_to_end, startScanning,
    injectFaceApi, startResponse.
  rewrite Hs.
  change (faceApiReady (STATE (log LogStarting w)))
    with (faceApiReady (STATE w)).
  destruct (faceApiReady (STATE w)) eqn:Hr.
  - destruct (startScanning_after_inject_loaded env (log LogStarting w))
      as (Hres & H1 & H2 & H3 & H4 & _ & H5 & H6 & H7 & _).
    destruct (startScanning_after_inject env true (log LogStarting w))
      as [w' ok]. simpl in *. subst ok.
    exists w'. rewrite H1, H2, H7, ?Hr. repeat split; assumption.
  - simpl in Hok. apply andb_true_iff in Hok as [Hg Ho].
    rewrite Hg. destruct o; try discriminate.
    unfold script_settles. cbv beta iota zeta.
    set (w1 := log LogFaceApiLoaded _).
    destruct (startScanning_after_inject_loaded env w1)
      as (Hres & H1 & H2 & H3 & H4 & _ & H5 & H6 & H7 & _).
    destruct (startScanning_after_inject env true w1) as [w' ok].
    subst w1. simpl in *. subst ok.
    exists w'. rewrite H1, H2, H7, ?Hr. repeat split; assumption.
Qed.

Lemma start_from_idle_succeeds_witness :
  exists w',
    startScanning_to_end sample_env ModelsLoaded initial_World = (w', true) /\
    scanning (STATE w') = true /\
    intervalId (STATE w') = Some 1%nat /\
    intervals w' = [1%nat] /\
    scan_passes w' = 1%nat.
Proof.
  destruct (start_from_idle_succeeds sample_env ModelsLoaded initial_World
              eq_refl eq_refl)
    as (w' & H1 & H2 & _ & H3 & H4 & H5 & _).
  exists w'. repeat split; assumption.
Defined.

(** X10: from an idle world with well kept timers, a start that goes
    through followed by a stop returns to idle: [STATE.scanning] is unset,
    no handle is held, the Processing Set is empty and the armed timers
    are those armed before the start. *)
Theorem start_then_stop_restores_idle (env : Env) (o : ScriptEvent) (w : World) :
  timers_ok w ->
  scanning (STATE w) = false ->
  initialisation_succeeds env o w = true ->
  let w' := fst (stopScanning (fst (startScanning_to_end env o w))) in
  snd (stopScanning (fst (startScanning_to_end env o w))) = true /\
  scanning (STATE w') = false /\
  intervalId (STATE w') = None /\
  processing (STATE w') = ∅ /\
  intervals w' = intervals w /\
  tt_matches w' = tt_matches w.
Proof.
  intros Hok Hs Hinit.
  destruct (start_from_idle_succeeds_helper env o w Hs Hinit)
    as (w1 & -> & H1 & H3 & H4 & H6).
  destruct Hok as (Hpos & Hb & _).
  cbv zeta. unfold stopScanning. simpl. rewrite H1. simpl. rewrite H3.
  destruct (next_interval w) as [|n] eqn:Hn; [lia|]. simpl.
  rewrite H4, H6. repeat split.
  rewrite filter_app, filter_other_id.
  - rewrite filter_cons, decide_False by (intros H; now apply H).
    rewrite filter_nil. apply app_nil_r.
  - intros Hin. apply Hb in Hin. lia.
Qed.

Lemma start_then_stop_restores_idle_witness :
  scanning
    (STATE (fst (stopScanning
                   (fst (startScanning_to_end sample_env ModelsLoaded
                           initial_World))))) = false /\
  intervals
    (fst (stopScanning
            (fst (startScanning_to_end sample_env ModelsLoaded initial_World))))
  = [].
Proof.
  destruct (start_then_stop_restores_idle sample_env ModelsLoaded initial_World)
    as (_ & H1 & _ & _ & H2 & _).
  - exact initial_timers_ok.
  - reflexivity.
  - reflexivity.
  - split; assumption.
Defined.

(** ** Suspended pipelines and the store *)

(** What a continuation does to the store: nothing, or one record added
    at the end that duplicates no record already there. *)
Lemma resume_store (env : Env) (fr : PipelineFrame) (w : World) :
  inflight (fst (resume env fr w)) = inflight w /\
  (tt_matches (fst (resume env fr w)) = tt_matches w \/
   exists record,
     tt_matches (fst (resume env fr w)) = Some (stored w ++ [record]) /\
     existsb (same_match record) (stored w) = false /\
     match fr with
     | AwaitingDetect _ _ d vd =>
         description record = d /\ prob record = verdict_prob vd /\
         isFemale vd = true
     | AwaitingSave _ _ => False
     end).
Proof.
  destruct fr as [key video d vd|key record]; simpl.
  - unfold processVideo_after_detect, saveMatch, stored. unfold_M.
    destruct (isFemale vd); simpl; [|auto].
    destruct (foundVideoUrl video) as [u|]; simpl; [|auto].
    destruct (storage_alive env); simpl; [|auto].
    destruct (existsb _ _) eqn:E; simpl; [auto|].
    split; [reflexivity|]. right. eexists. split; [reflexivity|].
    split; [exact E|]. simpl. auto.
  - auto.
Qed.

(** The store a continuation leaves, and whether it suspends again,
    depend on the world only through the store. *)
Lemma resume_store_depends (env : Env) (fr : PipelineFrame) (w1 w2 : World) :
  tt_matches w1 = tt_matches w2 ->
  tt_matches (fst (resume env fr w1)) = tt_matches (fst (resume env fr w2)) /\
  snd (resume env fr w1) = snd (resume env fr w2).
Proof.
  intros Ht. destruct fr as [key video d vd|key record]; simpl.
  - unfold processVideo_after_detect, saveMatch. unfold_M.
    destruct (isFemale vd); simpl; [|auto].
    destruct (foundVideoUrl video) as [u|]; simpl; [|auto].
    destruct (storage_alive env); simpl; [|auto].
    rewrite Ht. destruct (existsb _ _); simpl; auto.
  - auto.
Qed.

Lemma stopScanning_keeps (w : World) :
  inflight (fst (stopScanning w)) = inflight w /\
  tt_matches (fst (stopScanning w)) = tt_matches w /\
  responses (fst (stopScanning w)) = responses w /\
  pending_starts (fst (stopScanning w)) = pending_starts w /\
  snd (stopScanning w) = true.
Proof.
  unfold stopScanning. destruct (negb (scanning (STATE w))); simpl; [auto|].
  destruct (intervalId (STATE w)) as [[|n]|]; simpl; auto.
Qed.

(** X11: a stop request cancels nothing that is in flight: the suspended
    pipelines are all kept, and a pipeline resumed after the stop writes
    to the store exactly what it would have written without the stop. *)
Theorem stop_does_not_cancel_pipelines (env : Env) (i : nat) (w : World) :
  inflight (fst (stopScanning w)) = inflight w /\
  tt_matches (step (PipelineResumes env i) (fst (stopScanning w)))
    = tt_matches (step (PipelineResumes env i) w) /\
  inflight (step (PipelineResumes env i) (fst (stopScanning w)))
    = inflight (step (PipelineResumes env i) w).
Proof.
  destruct (stopScanning_keeps w) as (Hi & Ht & _).
  split; [exact Hi|].
  set (ws := fst (stopScanning w)) in *. simpl. rewrite Hi.
  destruct (inflight w !! i) as [fr|]; [|auto].
  set (a := with_inflight (delete i (inflight w)) ws).
  set (b := with_inflight (delete i (inflight w)) w).
  destruct (resume_store_depends env fr a b Ht) as [Hst Hr].
  destruct (resume_store env fr a) as [Hia _].
  destruct (resume_store env fr b) as [Hib _].
  destruct (resume env fr a) as [wa ra], (resume env fr b) as [wb rb].
  simpl in *. subst rb.
  destruct ra as [[fr'|]|]; simpl; rewrite ?Hia, ?Hib; auto.
Qed.

(** ** Requests and responses *)

Lemma awaiting_response_app (l : list StartFrame) (fr : StartFrame) :
  awaiting_response (l ++ [fr])
  = (awaiting_response l + (if respond fr then 1 else 0))%nat.
Proof. induction l as [|x l IH]; simpl; [|rewrite IH]; lia. Qed.

Lemma awaiting_response_delete (l : list StartFrame) (i : nat) (fr : StartFrame) :
  l !! i = Some fr ->
  (awaiting_response (delete i l) + (if respond fr then 1 else 0))%nat
  = awaiting_response l.
Proof.
  revert i. induction l as [|x l IH]; intros [|i] Hlk; simpl in *;
    try discriminate.
  - injection Hlk as ->. lia.
  - rewrite <- (IH i Hlk). lia.
Qed.

Lemma startScanning_owed (env : Env) (w : World) :
  match startScanning env w with
  | (w1, Some _) => owed w1 = owed w
  | (w1, None) =>
      responses w1 = responses w /\ pending_starts w1 = pending_starts w
  end.
Proof.
  unfold startScanning, injectFaceApi, owed.
  destruct (scanning (STATE w)); [reflexivity|].
  change (faceApiReady (STATE (log LogStarting w)))
    with (faceApiReady (STATE w)).
  destruct (faceApiReady (STATE w)).
  - destruct (startScanning_after_inject_loaded env (log LogStarting w))
      as (_ & _ & _ & _ & _ & _ & _ & _ & Hr & Hp).
    destruct (startScanning_after_inject env true (log LogStarting w)).
    simpl in *. rewrite Hr, Hp. reflexivity.
  - destruct (getURL_ok env); simpl; auto.
Qed.

Lemma startScanning_after_inject_owed (env : Env) (loaded : bool) (w : World) :
  responses (fst (startScanning_after_inject env loaded w)) = responses w /\
  pending_starts (fst (startScanning_after_inject env loaded w)) = pending_starts w.
Proof.
  destruct loaded; [|auto].
  destruct (startScanning_after_inject_loaded env w)
    as (_ & _ & _ & _ & _ & _ & _ & _ & Hr & Hp).
  auto.
Qed.

Lemma step_owed (e : Event) (w : World) :
  owed (step e w) = (owed w + (if answerable e then 1 else 0))%nat.
Proof.
  destruct e as [env msg|env|env id|env i o|env i]; simpl.
  - destruct msg; simpl.
    + pose proof (startScanning_owed env w) as H.
      destruct (startScanning env w) as [w1 [ok|]].
      * unfold owed, startResponse, sendResponse in *. simpl.
        rewrite length_app. simpl. lia.
      * destruct H as [Hr Hp]. unfold owed. simpl.
        rewrite Hr, Hp, awaiting_response_app. simpl. lia.
    + destruct (stopScanning_keeps w) as (_ & _ & Hr & Hp & _).
      destruct (stopScanning w) as [w1 ok]. simpl in *.
      unfold owed, sendResponse. simpl. rewrite length_app, Hr, Hp. simpl. lia.
    + unfold owed, sendResponse. simpl. rewrite length_app. simpl. lia.
    + destruct (storage_alive env); unfold owed, sendResponse; simpl;
        rewrite ?length_app; simpl; lia.
    + destruct (storage_alive env); unfold owed, sendResponse; simpl;
        rewrite ?length_app; simpl; lia.
    + lia.
  - pose proof (startScanning_owed env w) as H.
    destruct (startScanning env w) as [w1 [ok|]].
    + lia.
    + destruct H as [Hr Hp]. unfold owed. simpl.
      rewrite Hr, Hp, awaiting_response_app. simpl. lia.
  - destruct (bool_decide _); [|lia].
    destruct (control_fields _ _ (scanOnce_control env w))
      as (_ & _ & _ & Hp & Hr).
    unfold owed. rewrite Hp, Hr. lia.
  - destruct (pending_starts w !! i) as [fr|] eqn:Hlk; [|lia].
    pose proof (awaiting_response_delete _ _ _ Hlk) as Hdel.
    set (w1 := with_pending_starts (delete i (pending_starts w)) w).
    assert (H2 : responses (fst (script_settles o w1)) = responses w /\
                 pending_starts (fst (script_settles o w1))
                 = delete i (pending_starts w))
      by (destruct o; simpl; auto).
    destruct (script_settles o w1) as [w2 loaded]. simpl in H2.
    destruct H2 as [H2r H2p].
    destruct (startScanning_after_inject_owed env loaded w2) as [H3r H3p].
    destruct (startScanning_after_inject env loaded w2) as [w3 ok].
    simpl in *. unfold owed, startResponse, sendResponse.
    destruct (respond fr); simpl; rewrite ?length_app, H3r, H3p, H2r, H2p;
      simpl; lia.
  - destruct (inflight w !! i) as [fr|]; [|lia].
    set (w1 := with_inflight (delete i (inflight w)) w).
    assert (Hc : control (park (resume env fr w1)) = control w).
    { rewrite park_control, resume_control. reflexivity. }
    destruct (control_fields _ _ Hc) as (_ & _ & _ & Hp & Hr).
    unfold owed. rewrite Hp, Hr. lia.
Qed.

(** X12: responses are neither lost nor doubled.  After any sequence of
    events, the number of responses sent plus the number of start requests
    still waiting for their script element equals what it was before plus
    the number of requests received ([START_SCAN], [STOP_SCAN],
    [GET_STATUS], and [CLEAR_LIST] or [GET_MATCHES] whose storage call
    goes through). *)
Theorem every_request_answered_once (es : list Event) (w : World) :
  (length (responses (run es w))
   + awaiting_response (pending_starts (run es w)))%nat
  = (length (responses w) + awaiting_response (pending_starts w)
     + requests es)%nat.
Proof.
  change (owed (run es w) = (owed w + requests es)%nat).
  revert w. induction es as [|e es IH]; intros w; simpl; [lia|].
  rewrite IH, step_owed. lia.
Qed.

(** ** The store over time *)

Lemma startScanning_store (env : Env) (w : World) :
  tt_matches (fst (startScanning env w)) = tt_matches w.
Proof.
  unfold startScanning, injectFaceApi.
  destruct (scanning (STATE w)); [reflexivity|].
  change (faceApiReady (STATE (log LogStarting w)))
    with (faceApiReady (STATE w)).
  destruct (faceApiReady (STATE w)).
  - destruct (startScanning_after_inject_loaded env (log LogStarting w))
      as (_ & _ & _ & _ & _ & _ & _ & Ht & _).
    destruct (startScanning_after_inject env true (log LogStarting w)).
    simpl in *. exact Ht.
  - destruct (getURL_ok env); reflexivity.
Qed.

Lemma startScanning_after_inject_store (env : Env) (loaded : bool) (w : World) :
  tt_matches (fst (startScanning_after_inject env loaded w)) = tt_matches w.
Proof.
  destruct loaded; [|reflexivity].
  destruct (startScanning_after_inject_loaded env w)
    as (_ & _ & _ & _ & _ & _ & _ & Ht & _).
  exact Ht.
Qed.

(** One event either empties the store (a [CLEAR_LIST] that goes
    through), leaves it, or adds one record at the end that duplicates no
    record already there. *)
Lemma step_store (e : Event) (w : World) :
  (clears_store e = true /\ tt_matches (step e w) = Some []) \/
  (clears_store e = false /\
   (tt_matches (step e w) = tt_matches w \/
    exists record,
      tt_matches (step e w) = Some (stored w ++ [record]) /\
      existsb (same_match record) (stored w) = false /\
      exists i key video d vd,
        inflight w !! i = Some (AwaitingDetect key video d vd) /\
        description record = d /\ prob record = verdict_prob vd /\
        isFemale vd = true)).
Proof.
  destruct e as [env msg|env|env id|env i o|env i]; simpl.
  - destruct msg; simpl; try (right; split; [reflexivity|]; left; reflexivity).
    + right. split; [reflexivity|]. left.
      pose proof (startScanning_store env w) as H.
      destruct (startScanning env w) as [w1 [ok|]]; exact H.
    + right. split; [reflexivity|]. left.
      destruct (stopScanning_keeps w) as (_ & Ht & _).
      destruct (stopScanning w) as [w1 ok]. exact Ht.
    + destruct (storage_alive env); [left | right]; auto.
    + right. split; [reflexivity|]. left.
      destruct (storage_alive env); reflexivity.
  - right. split; [reflexivity|]. left.
    pose proof (startScanning_store env w) as H.
    destruct (startScanning env w) as [w1 [ok|]]; exact H.
  - right. split; [reflexivity|]. left.
    destruct (bool_decide _); [|reflexivity]. apply scanOnce_counts.
  - right. split; [reflexivity|]. left.
    destruct (pending_starts w !! i) as [fr|]; [|reflexivity].
    set (w1 := with_pending_starts (delete i (pending_starts w)) w).
    assert (H2 : tt_matches (fst (script_settles o w1)) = tt_matches w)
      by (destruct o; reflexivity).
    destruct (script_settles o w1) as [w2 loaded]. simpl in H2.
    pose proof (startScanning_after_inject_store env loaded w2) as H3.
    destruct (startScanning_after_inject env loaded w2) as [w3 ok].
    simpl in H3. destruct (respond fr); simpl; congruence.
  - right. split; [reflexivity|].
    destruct (inflight w !! i) as [fr|] eqn:Hlk; [|left; reflexivity].
    set (w1 := with_inflight (delete i (inflight w)) w).
    destruct (resume_store env fr w1) as [_ Hst].
    assert (Hpark : tt_matches (park (resume env fr w1))
                    = tt_matches (fst (resume env fr w1)))
      by (destruct (resume env fr w1) as [wr [[fr'|]|]]; reflexivity).
    rewrite Hpark.
    destruct Hst as [Hst|(record & Hst & Hfresh & Hfr)]; [left; exact Hst|].
    right. exists record. split; [exact Hst|]. split; [exact Hfresh|].
    destruct fr as [key video d vd|]; [|contradiction].
    exists i, key, video, d, vd. auto.
Qed.



Lemma fresh_record_not_in (record : MatchRecord) (l : list MatchRecord) :
  existsb (same_match record) l = false ->
  ~ In (url record) (map url l) /\
  (description record <> [] -> ~ In (description record) (map description l)).
Proof.
  intros Hf.
  assert (Hx : forall x, In x l -> same_match record x = false).
  { intros x Hin. destruct (same_match record x) eqn:E; [|reflexivity].
    assert (existsb (same_match record) l = true)
      by (apply existsb_exists; eauto).
    congruence. }
  split.
  - intros Hin. apply in_map_iff in Hin as (x & Hu & Hin).
    specialize (Hx x Hin). unfold same_match in Hx.
    apply orb_false_iff in Hx as [Hx _].
    assert (jsstring_eqb (url x) (url record) = true)
      by (now apply jsstring_eqb_eq).
    congruence.
  - intros Hne Hin. apply in_map_iff in Hin as (x & Hd & Hin).
    specialize (Hx x Hin). unfold same_match in Hx.
    apply orb_false_iff in Hx as [_ Hx].
    apply truthy_nonempty in Hne. rewrite Hne in Hx. simpl in Hx.
    assert (jsstring_eqb (description x) (description record) = true)
      by (now apply jsstring_eqb_eq).
    congruence.
Qed.

Lemma NoDup_snoc {A : Type} (l : list A) (x : A) :
  NoDup l -> ~ In x l -> NoDup (l ++ [x]).
Proof.
  intros Hnd Hx. apply NoDup_app. split; [assumption|].
  split; [|apply NoDup_singleton].
  intros y Hy Hy'. apply list_elem_of_singleton in Hy'. subst y.
  apply Hx. now apply list_elem_of_In.
Qed.

Lemma step_distinct (e : Event) (w : World) :
  store_invariant w ->
  NoDup (map url (stored w)) -> NoDup (map description (stored w)) ->
  NoDup (map url (stored (step e w))) /\
  NoDup (map description (stored (step e w))).
Proof.
  intros [_ Hfr] Hu Hd.
  destruct (step_store e w)
    as [[_ Hcl]|[_ [Hst|(record & Hst & Hfresh & i & key & video & d & vd
                          & Hlk & Hdesc & _)]]];
    unfold stored at 1 2; rewrite ?Hcl, ?Hst; simpl.
  - split; constructor.
  - split; assumption.
  - destruct (fresh_record_not_in _ _ Hfresh) as [Hnu Hnd].
    assert (Hq : frame_qualified (AwaitingDetect key video d vd))
      by (eapply Forall_lookup_1; eassumption).
    destruct Hq as [Har _].
    rewrite !map_app. simpl. split; apply NoDup_snoc; try assumption.
    apply Hnd. rewrite Hdesc. now apply isArabic_nonempty.
Qed.

(** X14: the store never holds two records with the same URL, nor two with
    the same description, in any world the event loop reaches from the
    initial one. *)
Theorem store_has_no_duplicates (es : list Event) :
  NoDup (map url (stored (run es initial_World))) /\
  NoDup (map description (stored (run es initial_World))).
Proof.
  assert (H : forall es w,
            store_invariant w ->
            NoDup (map url (stored w)) -> NoDup (map description (stored w)) ->
            NoDup (map url (stored (run es w))) /\
            NoDup (map description (stored (run es w)))).
  { clear es. induction es as [|e es IH]; intros w Hinv Hu Hd; simpl; [auto|].
    destruct (step_distinct e w Hinv Hu Hd) as [Hu' Hd'].
    apply IH; auto. now apply step_store_invariant. }
  apply H; [split; constructor | constructor | constructor].
Qed.

(** ** The classifier adapter inside the pipeline *)

(** X3: a failure while capturing or classifying the frame is absorbed.
    When the classifier is ready and [drawImage] or [detectAllFaces]
    throws, [detectFemaleOnFrame] logs one warning and returns the
    negative verdict; the pipeline of a visible element with an Arabic
    description then ends by the negative exit: its key is released,
    nothing is stored and the pipeline's own [catch] is not entered. *)
Theorem classifier_failure_is_absorbed (env : Env) (video : Video) (w : World)
    (d : jsstring) :
  faceApiReady (STATE w) = true ->
  window_faceapi env = true ->
  2 <= videoWidth video -> 2 <= videoHeight video ->
  canvasContext video = true ->
  drawImage_ok video = false \/ detectAllFaces video = Throws ->
  (exists w1,
      detectFemaleOnFrame env video w = (w1, Returns negative) /\
      console w1 = console w ++ [LogDetectError] /\ STATE w1 = STATE w) /\
  (isHTMLVideoElement video = true ->
   video_key env video ∉ processing (STATE w) ->
   isElementInViewport (viewport env) (boundingClientRect video) = true ->
   extractedDescription video = Returns d ->
   isArabic (Some d) = true ->
   exists w',
     processVideo_to_end env video w = (w', Returns None) /\
     processing (STATE w') = processing (STATE w) /\
     tt_matches w' = tt_matches w /\
     console w' = console w ++ [LogDetectError]).
Proof.
  intros Hready Hapi Hw Hh Hctx Hfail.
  assert (Hdet : forall w0,
            faceApiReady (STATE w0) = true ->
            exists w1,
              detectFemaleOnFrame env video w0 = (w1, Returns negative) /\
              console w1 = console w0 ++ [LogDetectError] /\
              STATE w1 = STATE w0 /\ tt_matches w1 = tt_matches w0).
  { intros w0 Hr0.
    rewrite detectFemaleOnFrame_cases, Hr0, Hapi, Hctx. simpl.
    replace (N.max 1 (videoWidth video) <? 2) with false
      by (symmetry; apply N.ltb_ge; lia).
    replace (N.max 1 (videoHeight video) <? 2) with false
      by (symmetry; apply N.ltb_ge; lia).
    simpl.
    destruct (drawImage_ok video); simpl.
    - destruct Hfail as [Hfail|Hfail]; [discriminate|]. rewrite Hfail.
      eexists. split; [reflexivity|]. auto.
    - eexists. split; [reflexivity|]. auto. }
  split.
  - destruct (Hdet w Hready) as (w1 & H1 & H2 & H3 & _). eauto.
  - intros Hv Hkey Hvis Hd Har.
    unfold processVideo_to_end. rewrite processVideo_cases. cbv zeta.
    rewrite Hv, Hvis, Hd, Har. simpl.
    rewrite bool_decide_eq_false_2 by assumption.
    set (w0 := with_STATE _ w).
    destruct (Hdet w0 Hready) as (w1 & H1 & H2 & H3 & H4).
    rewrite H1. simpl. unfold processVideo_after_detect. unfold_M. simpl.
    eexists. split; [reflexivity|]. simpl. rewrite H2, H3, H4. simpl.
    repeat split. apply set_eq. intros k.
    rewrite elem_of_difference, elem_of_union, !elem_of_singleton.
    split; [intros [[->|H] Hne]; [congruence | assumption]|].
    intros H. split; [now right|]. intros ->. contradiction.
Qed.

Lemma classifier_failure_is_absorbed_witness :
  let video :=
    {| isHTMLVideoElement := true; currentSrc := js "blob:abc"; src := [];
       dataset_scanKey := None; boundingClientRect := sample_rect;
       extractedDescription := Returns sample_description;
       foundVideoUrl := Returns (js "https://www.tiktok.com/@u/video/1");
       videoWidth := 576; videoHeight := 1024; video_poster := [];
       canvasContext := true; drawImage_ok := true;
       detectAllFaces := Throws |} in
  exists w',
    processVideo_to_end sample_env video ready_World = (w', Returns None) /\
    processing (STATE w') = processing (STATE ready_World) /\
    tt_matches w' = None /\
    console w' = [LogDetectError].
Proof.
  intros video.
  destruct (classifier_failure_is_absorbed sample_env video ready_World
              sample_description) as [_ H]; try reflexivity.
  - vm_compute. congruence.
  - vm_compute. congruence.
  - right. reflexivity.
  - apply H; try reflexivity.
    change (js "blob:abc" ∉ (∅ : gset jsstring)). apply not_elem_of_empty.
Defined.

(** ** The verdict and the order of detections *)

Lemma maxFemaleProb_le_of_incl (ds ds' : list Detection) :
  (forall d, In d ds -> In d ds') ->
  (maxFemaleProb ds <= maxFemaleProb ds')%Q.
Proof.
  intros Hincl. unfold maxFemaleProb.
  destruct (loop_attained ds 0) as [->|(d & Hin & Hf & ->)].
  - apply loop_ge_start.
  - apply loop_upper_bound; auto.
Qed.

(** X4: the verdict does not depend on the order in which the classifier
    lists the faces: for two lists that are permutations of each other
    the confidence is the same number and so is the decision. *)
Theorem verdict_ignores_detection_order (ds ds' : list Detection) :
  Permutation ds ds' ->
  (maxFemaleProb ds == maxFemaleProb ds')%Q /\
  Qle_bool femaleProbThreshold (maxFemaleProb ds)
  = Qle_bool femaleProbThreshold (maxFemaleProb ds').
Proof.
  intros Hp.
  assert (Heq : (maxFemaleProb ds == maxFemaleProb ds')%Q).
  { apply Qle_antisym; apply maxFemaleProb_le_of_incl; intros d Hd.
    - eapply Permutation_in; eassumption.
    - eapply Permutation_in; [symmetry|]; eassumption. }
  split; [exact Heq|]. now rewrite Heq.
Qed.

Lemma verdict_ignores_detection_order_witness :
  let male := {| gender := js "male"; genderProbability := 99 # 100 |} in
  let f1 := {| gender := js "female"; genderProbability := 75 # 100 |} in
  let f2 := {| gender := js "female"; genderProbability := 82 # 100 |} in
  (maxFemaleProb [male; f1; f2] == maxFemaleProb [f2; male; f1])%Q /\
  (maxFemaleProb [f2; male; f1] == 82 # 100)%Q.
Proof.
  intros male f1 f2. split; [|reflexivity].
  apply (verdict_ignores_detection_order [male; f1; f2] [f2; male; f1]).
  change [f2; male; f1] with ([f2] ++ [male; f1]).
  change [male; f1; f2] with ([male; f1] ++ [f2]).
  apply Permutation_app_comm.
Defined.

(** ** Keys *)




(** ** Clearing *)



(** * The extraction of the description and of the address *)

(** ** Trimming *)

Lemma trimStart_head (s : jsstring) (c : N) (r : jsstring) :
  trimStart s = c :: r -> is_white_space c = false.
Proof.
  induction s as [|a s IH]; simpl; [discriminate|].
  destruct (is_white_space a) eqn:E; [exact IH|].
  intros [= <- _]. exact E.
Qed.

Lemma trimStart_fixed (s : jsstring) : trimStart (trimStart s) = trimStart s.
Proof.
  destruct (trimStart s) as [|c r] eqn:E; [reflexivity|].
  simpl. now rewrite (trimStart_head _ _ _ E).
Qed.

Lemma trimStart_snoc (l : jsstring) (c : N) :
  is_white_space c = false -> trimStart (l ++ [c]) = trimStart l ++ [c].
Proof.
  intros Hc. induction l as [|a l IH]; simpl; [now rewrite Hc|].
  destruct (is_white_space a); [exact IH | reflexivity].
Qed.

Lemma trimEnd_fixed (s : jsstring) : trimEnd (trimEnd s) = trimEnd s.
Proof. unfold trimEnd. now rewrite rev_involutive, trimStart_fixed. Qed.

(** Removing white space at the end leaves a clean start clean. *)
Lemma trimStart_trimEnd (s : jsstring) :
  trimStart s = s -> trimStart (trimEnd s) = trimEnd s.
Proof.
  intros Hs. destruct s as [|c r]; [reflexivity|].
  assert (Hc : is_white_space c = false) by (eapply trimStart_head; exact Hs).
  unfold trimEnd. simpl rev. rewrite trimStart_snoc by exact Hc.
  rewrite rev_app_distr. simpl. now rewrite Hc.
Qed.

Lemma trim_trimmed (s : jsstring) : trimmed (trim s).
Proof.
  unfold trimmed, trim. split.
  - apply trimStart_trimEnd, trimStart_fixed.
  - apply trimEnd_fixed.
Qed.

Lemma trimmed_trim (s : jsstring) : trimmed s -> trim s = s.
Proof. intros [H1 H2]. unfold trim. now rewrite H1. Qed.

(** ** Where a description comes from *)

Lemma head_filter_Some {A : Type} (f : A -> bool) (l : list A) (x : A) :
  head (List.filter f l) = Some x -> In x l /\ f x = true.
Proof.
  intros H. apply filter_In.
  destruct (List.filter f l) as [|y l']; [discriminate|].
  injection H as ->. now left.
Qed.

Lemma head_filter_None {A : Type} (f : A -> bool) (l : list A) :
  head (List.filter f l) = None -> forall x, In x l -> f x = false.
Proof.
  intros H x Hin. destruct (f x) eqn:E; [|reflexivity].
  assert (Hx : In x (List.filter f l)) by (apply filter_In; auto).
  destruct (List.filter f l); [contradiction | discriminate].
Qed.

Section ExtractionProperties.

Variable letter_or_number : N -> bool.
Variable resolved_href : jsstring -> jsstring.

Lemma first_acceptable_Some (n : Node) (txt : jsstring) :
  first_acceptable letter_or_number n = Some txt ->
  acceptable_text letter_or_number txt = true /\
  exists c, In c (descendants n) /\ matches text_blocks c = true /\
            txt = trim (textContent c).
Proof.
  unfold first_acceptable. intros H.
  apply head_filter_Some in H as [Hin Hok]. split; [exact Hok|].
  apply in_map_iff in Hin as (c & <- & Hc).
  unfold querySelectorAll in Hc. apply filter_In in Hc as [Hc Hm].
  eauto.
Qed.

Lemma first_acceptable_None (n : Node) (c : Node) :
  first_acceptable letter_or_number n = None ->
  In c (descendants n) -> matches text_blocks c = true ->
  acceptable_text letter_or_number (trim (textContent c)) = false.
Proof.
  unfold first_acceptable. intros H Hc Hm.
  apply (head_filter_None _ _ H).
  apply in_map_iff. exists c. split; [reflexivity|].
  unfold querySelectorAll. apply filter_In. auto.
Qed.

Lemma acceptable_text_spec (txt : jsstring) :
  acceptable_text letter_or_number txt = true ->
  isArabic (Some txt) = true /\ (2 <= length txt)%nat /\
  description_like letter_or_number txt = true.
Proof.
  unfold acceptable_text. rewrite !andb_true_iff, N.leb_le.
  intros [[[_ Hlen] Hlike] Har]. repeat split; auto. lia.
Qed.

(** The ancestors the loop of lines 158-168 visits. *)
Lemma nearby_text_Some (levels : nat) (doc : Node) (p : ElementRef)
    (txt : jsstring) :
  nearby_text letter_or_number levels doc (Some p) = Some txt ->
  exists k n,
    (k < levels)%nat /\ node_at doc (drop k p) = Some n /\
    first_acceptable letter_or_number n = Some txt.
Proof.
  revert p. induction levels as [|levels IH]; intros p; simpl; [discriminate|].
  destruct (node_at doc p) as [n|] eqn:Hn; [|discriminate].
  destruct (first_acceptable letter_or_number n) as [t|] eqn:Hf.
  - intros [= ->]. exists 0%nat, n. rewrite drop_0. repeat split; auto. lia.
  - destruct p as [|i p']; simpl; [destruct levels; discriminate|].
    intros H. destruct (IH p' H) as (k & n' & Hk & Hn' & Hf').
    exists (S k), n'. simpl. repeat split; auto. lia.
Qed.

(** X16: the description extracted has no white space at either end: it
    is always the trimmed text of a slot, of a text block or of the
    label. *)
Theorem extracted_description_is_trimmed (doc : Node) (video : ElementRef) :
  trimmed (extractDescriptionForVideo letter_or_number doc video) /\
  trim (extractDescriptionForVideo letter_or_number doc video)
  = extractDescriptionForVideo letter_or_number doc video.
Proof.
  assert (H : trimmed (extractDescriptionForVideo letter_or_number doc video)).
  { unfold extractDescriptionForVideo.
    destruct (slot_text doc video) as [t|] eqn:Hs.
    - unfold slot_text in Hs.
      destruct (closest _ _ _); [|discriminate].
      destruct (node_at _ _); [|discriminate].
      destruct (querySelector _ _); [|discriminate].
      destruct (truthy _); [|discriminate].
      injection Hs as <-. apply trim_trimmed.
    - destruct (nearby_text _ _ _ _) as [t|] eqn:Hn.
      + destruct (parentElement video) as [p|]; [|discriminate].
        apply nearby_text_Some in Hn as (k & n & _ & _ & Hf).
        apply first_acceptable_Some in Hf as (_ & c & _ & _ & ->).
        apply trim_trimmed.
      + apply trim_trimmed. }
  split; [exact H | now apply trimmed_trim].
Qed.

(** X17: where the description comes from.  It is the non-empty text of
    the description slot; or, when there is no such text, the text of a
    [div], [span], [strong] or [p] below one of the first five
    ancestors of the video, at least two code units long and with an
    Arabic character; or else the label.  So a description that fails
    the text filter is the slot's text or the label. *)
Theorem extracted_description_origin (doc : Node) (video : ElementRef) :
  let r := extractDescriptionForVideo letter_or_number doc video in
  ((slot_text doc video = Some r /\ r <> []) \/
   (slot_text doc video = None /\
    exists k n c,
      (1 <= k <= 5)%nat /\ node_at doc (drop k video) = Some n /\
      In c (descendants n) /\ matches text_blocks c = true /\
      r = trim (textContent c) /\
      isArabic (Some r) = true /\ (2 <= length r)%nat) \/
   (slot_text doc video = None /\ r = label_text doc video)) /\
  (isArabic (Some r) = false ->
   slot_text doc video = Some r \/ r = label_text doc video).
Proof.
  cbv zeta.
  assert (H : let r := extractDescriptionForVideo letter_or_number doc video in
           (slot_text doc video = Some r /\ r <> []) \/
           (slot_text doc video = None /\
            exists k n c,
              (1 <= k <= 5)%nat /\ node_at doc (drop k video) = Some n /\
              In c (descendants n) /\ matches text_blocks c = true /\
              r = trim (textContent c) /\
              isArabic (Some r) = true /\ (2 <= length r)%nat) \/
           (slot_text doc video = None /\ r = label_text doc video)).
  { cbv zeta. unfold extractDescriptionForVideo.
    destruct (slot_text doc video) as [t|] eqn:Hs.
    - left. split; [reflexivity|].
      unfold slot_text in Hs.
      destruct (closest _ _ _); [|discriminate].
      destruct (node_at _ _); [|discriminate].
      destruct (querySelector _ _); [|discriminate].
      destruct (truthy _) eqn:Ht; [|discriminate].
      injection Hs as <-. now apply truthy_nonempty.
    - right.
      destruct (nearby_text _ _ _ _) as [t|] eqn:Hn; [left | right; auto].
      split; [reflexivity|].
      destruct video as [|i p]; [discriminate|].
      change (parentElement (i :: p)) with (Some p) in Hn.
      apply nearby_text_Some in Hn as (k & n & Hk & Hnode & Hf).
      apply first_acceptable_Some in Hf as (Hok & c & Hc & Hm & ->).
      apply acceptable_text_spec in Hok as (Har & Hlen & _).
      exists (S k), n, c. simpl. repeat split; auto; lia. }
  split; [exact H|].
  intros Hna. cbv zeta in H.
  destruct H as [[H _]|[(_ & k & n & c & _ & _ & _ & _ & _ & Har & _)|[_ H]]];
    [now left | congruence | now right].
Qed.

(** X18: a caption is found when nothing shadows it.  If the nearest
    [data-e2e] ancestor gives no slot text and some text block below the
    video's parent has an acceptable trimmed text (two code units or
    more, a letter, digit, [#] or [@], an Arabic character), then the
    description extracted is the first such text in document order, and
    it passes the text filter. *)
Theorem nearby_caption_is_found (doc : Node) (i : nat) (parent : ElementRef)
    (n c : Node) :
  slot_text doc (i :: parent) = None ->
  node_at doc parent = Some n ->
  In c (descendants n) -> matches text_blocks c = true ->
  acceptable_text letter_or_number (trim (textContent c)) = true ->
  first_acceptable letter_or_number n
    = Some (extractDescriptionForVideo letter_or_number doc (i :: parent)) /\
  isArabic (Some (extractDescriptionForVideo letter_or_number doc (i :: parent)))
    = true.
Proof.
  intros Hs Hn Hc Hm Hok.
  unfold extractDescriptionForVideo. rewrite Hs. simpl. rewrite Hn.
  destruct (first_acceptable letter_or_number n) as [t|] eqn:Hf.
  - split; [reflexivity|].
    apply first_acceptable_Some in Hf as [Hok' _].
    now apply acceptable_text_spec in Hok'.
  - rewrite (first_acceptable_None _ _ Hf Hc Hm) in Hok. discriminate.
Qed.

End ExtractionProperties.

Lemma nearby_caption_is_found_witness :
  extractDescriptionForVideo arabic_class caption_doc sample_ref
    = sample_description /\
  isArabic
    (Some (extractDescriptionForVideo arabic_class caption_doc sample_ref)) = true.
Proof.
  destruct (nearby_caption_is_found arabic_class caption_doc 0%nat [0%nat]
              (Element (js "div") []
                 [Element (js "video") [] [];
                  Element (js "p") [] [Text (0x20 :: sample_description ++ [0x0A])]])
              (Element (js "p") [] [Text (0x20 :: sample_description ++ [0x0A])]))
    as [H1 H2].
  - reflexivity.
  - reflexivity.
  - simpl. auto.
  - reflexivity.
  - reflexivity.
  - split; [reflexivity | exact H2].
Defined.

Lemma extracted_description_origin_witness :
  extractDescriptionForVideo arabic_class bare_doc sample_ref = js "clip" /\
  (slot_text bare_doc sample_ref = Some (js "clip") \/
   js "clip" = label_text bare_doc sample_ref).
Proof.
  assert (E : extractDescriptionForVideo arabic_class bare_doc sample_ref
              = js "clip") by reflexivity.
  split; [exact E|]. rewrite <- E.
  apply (proj2 (extracted_description_origin arabic_class bare_doc sample_ref)).
  reflexivity.
Defined.

(** ** Where the address comes from *)

Lemma matches_is_element (sel : Selector) (n : Node) :
  matches sel n = true -> exists tag attrs cs, n = Element tag attrs cs.
Proof.
  destruct n as [tag attrs cs|d]; [eauto|].
  unfold matches. intros H. apply existsb_exists in H as (c & _ & H).
  simpl in H. discriminate.
Qed.

Lemma node_from_descendants (doc : Node) (indexes : list nat) (n c : Node) :
  node_from doc indexes = Some n ->
  In c (descendants n) -> In c (descendants doc).
Proof.
  revert doc. induction indexes as [|i rest IH]; intros doc; simpl.
  - intros [= ->]. auto.
  - destruct doc as [tag attrs cs|d]; [|discriminate].
    destruct (cs !! i) as [ch|] eqn:Hlk; [|discriminate].
    intros Hn Hc. specialize (IH ch Hn Hc).
    simpl. apply in_flat_map. exists ch.
    split; [apply list_elem_of_In; eapply list_elem_of_lookup_2; exact Hlk|].
    destruct ch; [now right | exact IH].
Qed.

Lemma node_from_all_elements (doc : Node) (indexes : list nat) (n : Node)
    (sel : Selector) :
  node_from doc indexes = Some n -> matches sel n = true ->
  In n (all_elements doc).
Proof.
  revert doc. induction indexes as [|i rest IH]; intros doc; simpl.
  - intros [= ->] _. now left.
  - destruct doc as [tag attrs cs|d]; [|discriminate].
    destruct (cs !! i) as [ch|] eqn:Hlk; [|discriminate].
    intros Hn Hm. right. simpl. apply in_flat_map. exists ch.
    split; [apply list_elem_of_In; eapply list_elem_of_lookup_2; exact Hlk|].
    destruct (IH ch Hn Hm) as [<-|Hin].
    + destruct (matches_is_element _ _ Hm) as (t & a & c & ->). now left.
    + destruct ch; [now right | exact Hin].
Qed.

Lemma closest_Some (sel : Selector) (doc : Node) (ref q : ElementRef) :
  closest sel doc ref = Some q ->
  exists n, node_at doc q = Some n /\ matches sel n = true.
Proof.
  induction ref as [|i p IH]; cbn [closest].
  - destruct (node_at doc []) as [n|] eqn:Hn; [|discriminate].
    destruct (matches sel n) eqn:Hm; [|discriminate].
    intros [= <-]. eauto.
  - destruct (node_at doc (i :: p)) as [n|] eqn:Hn.
    + destruct (matches sel n) eqn:Hm; [|exact IH].
      intros [= <-]. eauto.
    + exact IH.
Qed.

Lemma querySelector_Some (sel : Selector) (n c : Node) :
  querySelector sel n = Some c ->
  In c (descendants n) /\ matches sel c = true.
Proof. unfold querySelector, querySelectorAll. apply head_filter_Some. Qed.

Lemma video_anchor_spec (n : Node) :
  matches video_anchor n = true ->
  exists attrs cs href,
    n = Element (js "a") attrs cs /\
    getAttribute (js "href") n = Some href /\
    includes (js "/video/") href = true.
Proof.
  destruct n as [tag attrs cs|d]; [|intros H; apply matches_is_element in H
                                    as (? & ? & ? & ?); discriminate].
  unfold matches, video_anchor. simpl. rewrite orb_false_r.
  rewrite andb_true_iff, jsstring_eqb_eq. intros [-> Ha].
  destruct (attribute_value _ attrs) as [href|] eqn:E; [|discriminate].
  simpl in Ha. exists attrs, cs, href. auto.
Qed.

Section AddressProperties.

Variable resolved_href : jsstring -> jsstring.

Lemma video_anchor_of_Some (doc : Node) (video : ElementRef) (a : Node) :
  video_anchor_of doc video = Some a ->
  In a (all_elements doc) /\ matches video_anchor a = true.
Proof.
  unfold video_anchor_of.
  destruct (closest video_anchor doc video) as [q|] eqn:Hc.
  - apply closest_Some in Hc as (n & Hn & Hm). intros Ha.
    unfold node_at in *. rewrite Hn in Ha. injection Ha as <-.
    split; [eapply node_from_all_elements; eassumption | exact Hm].
  - destruct (parentElement video) as [p|]; [|discriminate].
    destruct (node_at doc p) as [n|] eqn:Hn; [|discriminate].
    intros Hq. apply querySelector_Some in Hq as [Hin Hm].
    split; [|exact Hm]. right.
    eapply node_from_descendants; eassumption.
Qed.

(** X19: the address of a match is the page's own address or the
    non-empty resolved [href] of an [a] element of the document whose
    [href] attribute contains [/video/]; in a document without such an
    element it is the page's address. *)
Theorem findVideoUrl_origin (doc : Node) (location : jsstring)
    (video : ElementRef) :
  let r := findVideoUrl resolved_href doc location video in
  (r = location \/
   exists attrs cs href,
     In (Element (js "a") attrs cs) (all_elements doc) /\
     attribute_value (js "href") attrs = Some href /\
     includes (js "/video/") href = true /\
     r = resolved_href href /\ r <> []) /\
  ((forall n, In n (all_elements doc) -> matches video_anchor n = false) ->
   r = location).
Proof.
  cbv zeta. unfold findVideoUrl.
  destruct (video_anchor_of doc video) as [a|] eqn:Ha.
  - apply video_anchor_of_Some in Ha as [Hin Hm]. split.
    + destruct (video_anchor_spec a Hm) as (attrs & cs & href & -> & Hh & Hi).
      rewrite Hh. simpl.
      destruct (truthy (resolved_href href)) eqn:Ht; [right | now left].
      exists attrs, cs, href. repeat split; auto.
      now apply truthy_nonempty.
    + intros Hnone. rewrite (Hnone a Hin) in Hm. discriminate.
  - split; [now left | reflexivity].
Qed.

End AddressProperties.

Lemma findVideoUrl_origin_witness :
  findVideoUrl (fun h => js "https://www.tiktok.com" ++ h) bare_doc
    (js "https://www.tiktok.com/foryou") sample_ref
  = js "https://www.tiktok.com/foryou" /\
  findVideoUrl (fun h => js "https://www.tiktok.com" ++ h) sample_doc
    (js "https://www.tiktok.com/foryou") sample_ref
  = js "https://www.tiktok.com/@u/video/1".
Proof.
  split; [|reflexivity].
  apply (proj2 (findVideoUrl_origin (fun h => js "https://www.tiktok.com" ++ h)
                  bare_doc (js "https://www.tiktok.com/foryou") sample_ref)).
  intros n Hin. simpl in Hin.
  destruct Hin as [<-|[<-|[<-|[]]]]; reflexivity.
Defined.

(** * Further invariants of the pipelines *)

(** X20: saving is idempotent for any store: saving a record a second
    time leaves the world exactly as the first save left it, and when
    the storage call goes through the second save resolves to [false]. *)
Theorem saveMatch_twice (env : Env) (record : MatchRecord) (w : World) :
  append env record (append env record w) = append env record w /\
  (storage_alive env = true ->
   append_result env record (append env record w) = Returns false).
Proof.
  unfold append, append_result.
  destruct (storage_alive env) eqn:Ha.
  - destruct (existsb (same_match record) (stored w)) eqn:E.
    + rewrite (saveMatch_duplicate env record w Ha E). simpl.
      rewrite (saveMatch_duplicate env record w Ha E). auto.
    + rewrite (saveMatch_fresh env record w Ha E). simpl.
      rewrite saveMatch_duplicate; [auto | exact Ha |].
      rewrite stored_with_tt_matches.
      apply existsb_same_match_app, same_match_refl.
  - rewrite !(saveMatch_dead env record _ Ha). simpl.
    rewrite ?(saveMatch_dead env record _ Ha).
    split; [reflexivity | discriminate].
Qed.

Lemma saveMatch_twice_witness :
  let r := sample_record "https://t/video/1" "a" in
  append sample_env r (append sample_env r initial_World)
  = append sample_env r initial_World /\
  stored (append sample_env r initial_World) = [r] /\
  append_result sample_env r (append sample_env r initial_World) = Returns false.
Proof.
  intros r.
  destruct (saveMatch_twice sample_env r initial_World) as [H1 H2].
  split; [exact H1|]. split; [reflexivity | exact (H2 eq_refl)].
Defined.

(** ** Suspended pipelines *)

(** What a continuation leaves: it does not throw; it either ends, with
    the Processing Set as it was or without the frame's key, or suspends
    once more with the same key, a smaller weight and the Processing Set
    as it was. *)
Lemma resume_outcome (env : Env) (fr : PipelineFrame) (w : World) :
  exists w' r,
    resume env fr w = (w', Returns r) /\
    inflight w' = inflight w /\
    classifier_calls w' = classifier_calls w /\
    match r with
    | Some fr' =>
        frame_key fr' = frame_key fr /\
        (frame_weight fr' < frame_weight fr)%nat /\
        processing (STATE w') = processing (STATE w)
    | None =>
        processing (STATE w') = processing (STATE w) \/
        processing (STATE w') = processing (STATE w) ∖ {[frame_key fr]}
    end.
Proof.
  destruct fr as [key video d vd|key record]; simpl.
  - unfold processVideo_after_detect, saveMatch. unfold_M.
    destruct (isFemale vd); simpl; [|eexists _, _; repeat split; now right].
    destruct (foundVideoUrl video) as [u|]; simpl;
      [|eexists _, _; repeat split; now left].
    destruct (storage_alive env); simpl;
      [|eexists _, _; repeat split; now left].
    destruct (existsb _ _); simpl; eexists _, _; repeat split; simpl; lia.
  - unfold processVideo_after_save. unfold_M. simpl.
    eexists _, _. repeat split. now right.
Qed.

Lemma inflight_weight_app (l k : list PipelineFrame) :
  inflight_weight (l ++ k) = (inflight_weight l + inflight_weight k)%nat.
Proof. induction l as [|x l IH]; simpl; [|rewrite IH]; lia. Qed.

Lemma inflight_weight_delete (l : list PipelineFrame) (i : nat)
    (fr : PipelineFrame) :
  l !! i = Some fr ->
  (inflight_weight (delete i l) + frame_weight fr)%nat = inflight_weight l.
Proof.
  revert i. induction l as [|x l IH]; intros [|i] Hlk; simpl in *;
    try discriminate.
  - injection Hlk as ->. lia.
  - rewrite <- (IH i Hlk). lia.
Qed.

(** X21: every suspended pipeline is over after at most two resumptions:
    resuming one strictly lowers the total weight of the suspended
    pipelines (two for a pipeline waiting for its verdict, one for a
    pipeline waiting for the store), and never calls the classifier. *)
Theorem resumption_makes_progress (env : Env) (i : nat) (fr : PipelineFrame)
    (w : World) :
  inflight w !! i = Some fr ->
  (inflight_weight (inflight (step (PipelineResumes env i) w))
   < inflight_weight (inflight w))%nat /\
  classifier_calls (step (PipelineResumes env i) w) = classifier_calls w.
Proof.
  intros Hlk. simpl. rewrite Hlk.
  set (w1 := with_inflight (delete i (inflight w)) w).
  destruct (resume_outcome env fr w1) as (w2 & r & Hrun & Hi & Hc & Hr).
  rewrite Hrun.
  pose proof (inflight_weight_delete _ _ _ Hlk) as Hdel.
  destruct r as [fr'|]; simpl; rewrite ?Hi, ?Hc; simpl.
  - destruct Hr as (_ & Hlt & _).
    rewrite inflight_weight_app. simpl. split; [lia | reflexivity].
  - split; [|reflexivity].
    destruct fr; simpl in *; lia.
Qed.

Lemma resumption_makes_progress_witness :
  let w := scanOnce sample_env ready_World in
  inflight_weight (inflight w) = 2%nat /\
  (inflight_weight (inflight (step (PipelineResumes sample_env 0) w)) < 2)%nat /\
  inflight
    (step (PipelineResumes sample_env 0)
       (step (PipelineResumes sample_env 0) w)) = [].
Proof.
  intros w.
  assert (E : inflight_weight (inflight w) = 2%nat) by reflexivity.
  split; [exact E|]. split; [|reflexivity].
  rewrite <- E.
  eapply (resumption_makes_progress sample_env 0 _ w). reflexivity.
Defined.

(** ** One pipeline per key *)

Lemma one_pipeline_per_key_transfer (w w' : World) :
  inflight w' = inflight w ->
  processing (STATE w') = processing (STATE w) ->
  one_pipeline_per_key w -> one_pipeline_per_key w'.
Proof. unfold one_pipeline_per_key. intros -> ->. auto. Qed.

Lemma NoDup_map_delete {A B : Type} (f : A -> B) (l : list A) (i : nat) (x : A) :
  l !! i = Some x ->
  NoDup (map f l) ->
  NoDup (map f (delete i l)) /\
  (forall y, In y (delete i l) -> In y l /\ f y <> f x).
Proof.
  revert i. induction l as [|a l IH]; intros [|i] Hlk Hnd; simpl in *;
    try discriminate; inversion Hnd as [|? ? Hnotin Hnd']; subst;
    rewrite list_elem_of_In in Hnotin.
  - injection Hlk as ->. split; [assumption|].
    intros y Hy. split; [now right|].
    intros Heq. apply Hnotin. rewrite <- Heq. now apply in_map.
  - destruct (IH i Hlk Hnd') as [IH1 IH2]. split.
    + constructor; [|assumption].
      rewrite list_elem_of_In.
      intros Hin. apply in_map_iff in Hin. destruct Hin as (y & Hy & Hin).
      apply Hnotin. rewrite <- Hy. apply in_map. now apply IH2.
    + intros y [->|Hy].
      * split; [now left|]. intros Heq. apply Hnotin. rewrite Heq.
        apply in_map. apply list_elem_of_In. eapply list_elem_of_lookup_2.
        eassumption.
      * destruct (IH2 y Hy). split; [now right | assumption].
Qed.

Lemma park_processVideo_one_pipeline_per_key (env : Env) (video : Video)
    (w : World) :
  one_pipeline_per_key w ->
  one_pipeline_per_key (park (processVideo env video w)).
Proof.
  intros [Hnd Hin].
  destruct (processVideo_admission env video w) as (w' & r & Hrun & Hsub & Hi & Hr).
  rewrite Hrun. destruct r as [fr|]; simpl.
  - destruct Hr as (_ & Hfresh & Hnow & _). split; simpl; rewrite Hi.
    + rewrite map_app. simpl. apply NoDup_snoc; [assumption|].
      intros Hk. apply in_map_iff in Hk. destruct Hk as (fr0 & Hk & Hfr0).
      apply Hfresh. rewrite <- Hk. now apply Hin.
    + intros fr0 Hfr0. apply in_app_or in Hfr0.
      destruct Hfr0 as [Hfr0|[<-|[]]]; [|assumption].
      apply Hsub. now apply Hin.
  - split; rewrite Hi; [assumption|].
    intros fr0 Hfr0. apply Hsub. now apply Hin.
Qed.

Lemma scanOnce_one_pipeline_per_key (env : Env) (w : World) :
  one_pipeline_per_key w -> one_pipeline_per_key (scanOnce env w).
Proof.
  unfold scanOnce. intros H.
  assert (H0 : one_pipeline_per_key (with_scan_passes (S (scan_passes w)) w))
    by exact H.
  revert H0. generalize (with_scan_passes (S (scan_passes w)) w). clear.
  induction (document_videos env) as [|v vs IH]; intros w H; simpl; [exact H|].
  apply IH. now apply park_processVideo_one_pipeline_per_key.
Qed.

Lemma startScanning_after_inject_one_pipeline_per_key (env : Env)
    (loaded : bool) (w : World) :
  one_pipeline_per_key w ->
  one_pipeline_per_key (fst (startScanning_after_inject env loaded w)).
Proof.
  intros H. unfold startScanning_after_inject.
  destruct loaded; simpl; [|exact H].
  apply (one_pipeline_per_key_transfer
           (scanOnce env (with_STATE (set_scanning true) w)));
    [reflexivity | reflexivity |].
  apply scanOnce_one_pipeline_per_key. exact H.
Qed.

Lemma startScanning_one_pipeline_per_key (env : Env) (w : World) :
  one_pipeline_per_key w -> one_pipeline_per_key (fst (startScanning env w)).
Proof.
  intros H. unfold startScanning, injectFaceApi.
  destruct (scanning (STATE w)); [exact H|].
  change (faceApiReady (STATE (log LogStarting w)))
    with (faceApiReady (STATE w)).
  destruct (faceApiReady (STATE w)).
  - pose proof (startScanning_after_inject_one_pipeline_per_key env true
                  (log LogStarting w) H) as H1.
    destruct (startScanning_after_inject env true (log LogStarting w)).
    exact H1.
  - destruct (getURL_ok env); exact H.
Qed.

Lemma resume_one_pipeline_per_key (env : Env) (i : nat) (fr : PipelineFrame)
    (w : World) :
  inflight w !! i = Some fr ->
  one_pipeline_per_key w ->
  one_pipeline_per_key
    (park (resume env fr (with_inflight (delete i (inflight w)) w))).
Proof.
  intros Hlk [Hnd Hin].
  destruct (NoDup_map_delete frame_key _ _ _ Hlk Hnd) as [Hnd' Hrest].
  assert (Hfr : frame_key fr ∈ processing (STATE w)).
  { apply Hin, list_elem_of_In. eapply list_elem_of_lookup_2. eassumption. }
  set (w1 := with_inflight (delete i (inflight w)) w).
  destruct (resume_outcome env fr w1) as (w2 & r & Hrun & Hi & _ & Hr).
  rewrite Hrun. destruct r as [fr'|]; simpl.
  - destruct Hr as (Hk & _ & Hp). split; simpl; rewrite Hi; simpl.
    + rewrite map_app. simpl. apply NoDup_snoc; [assumption|].
      intros Hdup. apply in_map_iff in Hdup. destruct Hdup as (y & Hy & Hdup).
      destruct (Hrest y Hdup) as [_ Hne]. congruence.
    + rewrite Hp. simpl. intros y Hy. apply in_app_or in Hy.
      destruct Hy as [Hy|[<-|[]]]; [|rewrite Hk; exact Hfr].
      apply Hin. now apply Hrest.
  - split; rewrite Hi; simpl; [assumption|].
    intros y Hy. destruct (Hrest y Hy) as [Hy' Hne].
    destruct Hr as [->| ->]; simpl; [now apply Hin|].
    apply elem_of_difference. split; [now apply Hin|].
    rewrite elem_of_singleton. exact Hne.
Qed.

Lemma step_one_pipeline_per_key (e : Event) (w : World) :
  is_stop_request e = false ->
  one_pipeline_per_key w -> one_pipeline_per_key (step e w).
Proof.
  intros Hstop H.
  destruct e as [env msg|env|env id|env i o|env i]; simpl.
  - destruct msg; simpl; try discriminate; try exact H.
    + pose proof (startScanning_one_pipeline_per_key env w H) as H1.
      destruct (startScanning env w) as [w1 [ok|]]; exact H1.
    + destruct (storage_alive env); exact H.
    + destruct (storage_alive env); exact H.
  - pose proof (startScanning_one_pipeline_per_key env w H) as H1.
    destruct (startScanning env w) as [w1 [ok|]]; exact H1.
  - destruct (bool_decide _); [|exact H].
    now apply scanOnce_one_pipeline_per_key.
  - destruct (pending_starts w !! i) as [fr|]; [|exact H].
    set (w1 := with_pending_starts _ w).
    assert (H2 : one_pipeline_per_key (fst (script_settles o w1)))
      by (destruct o; exact H).
    destruct (script_settles o w1) as [w2 loaded]. simpl in H2.
    pose proof (startScanning_after_inject_one_pipeline_per_key env loaded w2 H2)
      as H3.
    destruct (startScanning_after_inject env loaded w2) as [w3 ok].
    destruct (respond fr); exact H3.
  - destruct (inflight w !! i) as [fr|] eqn:Hlk; [|exact H].
    now apply resume_one_pipeline_per_key.
Qed.

(** X22: as long as no stop request arrives, no element is in two
    pipelines at once: in every world reached from the initial one the
    suspended pipelines have pairwise distinct keys, and each of these
    keys is in the Processing Set. *)
Theorem one_pipeline_per_key_until_stop (es : list Event) :
  existsb is_stop_request es = false ->
  one_pipeline_per_key (run es initial_World).
Proof.
  assert (H : forall es w, existsb is_stop_request es = false ->
                one_pipeline_per_key w -> one_pipeline_per_key (run es w)).
  { clear es. induction es as [|e es IH]; intros w Hes Hw; simpl; [exact Hw|].
    simpl in Hes. apply orb_false_iff in Hes. destruct Hes as [He Hes].
    apply IH; [exact Hes|]. now apply step_one_pipeline_per_key. }
  intros Hes. apply H; [exact Hes|].
  split; simpl; [constructor | intros fr []].
Qed.

Lemma one_pipeline_per_key_until_stop_witness :
  let es := [MessageArrives sample_env START_SCAN;
             ScriptSettles sample_env 0 ModelsLoaded;
             IntervalFires sample_env 1] in
  length (inflight (run es initial_World)) = 1%nat /\
  one_pipeline_per_key (run es initial_World).
Proof.
  intros es. split; [reflexivity|].
  apply (one_pipeline_per_key_until_stop es). reflexivity.
Defined.

(** After a stop request the property is lost: the pipeline suspended
    before the stop is still there, its key is forgotten, and the next
    start admits the same element again. *)
Example stop_then_start_doubles_pipeline :
  let es := [MessageArrives sample_env START_SCAN;
             ScriptSettles sample_env 0 ModelsLoaded;
             MessageArrives sample_env STOP_SCAN;
             MessageArrives sample_env START_SCAN] in
  map frame_key (inflight (run es initial_World))
  = [video_key sample_env sample_video; video_key sample_env sample_video] /\
  classifier_calls (run es initial_World) = 2%nat.
Proof. split; reflexivity. Qed.

(** ** Before the classifier is ready *)

Lemma dormant_transfer (t : option (list MatchRecord)) (w w' : World) :
  scanning (STATE w') = scanning (STATE w) ->
  intervals w' = intervals w ->
  scan_passes w' = scan_passes w ->
  inflight w' = inflight w ->
  classifier_calls w' = classifier_calls w ->
  tt_matches w' = tt_matches w ->
  dormant t w -> dormant t w'.
Proof. unfold dormant. intros -> -> -> -> -> ->. auto. Qed.

Lemma startScanning_dormant (env : Env) (t : option (list MatchRecord))
    (w : World) :
  faceApiReady (STATE w) = false ->
  dormant t w ->
  faceApiReady (STATE (fst (startScanning env w))) = false /\
  dormant t (fst (startScanning env w)).
Proof.
  intros Hr Hd. pose proof Hd as (Hs & _).
  unfold startScanning, injectFaceApi. rewrite Hs.
  change (faceApiReady (STATE (log LogStarting w)))
    with (faceApiReady (STATE w)).
  rewrite Hr. destruct (getURL_ok env); simpl; split; try exact Hr;
    eapply dormant_transfer; try exact Hd; reflexivity.
Qed.

(** One event in a dormant world whose classifier is not ready: the
    classifier becomes ready, or the world stays dormant. *)
Lemma step_dormant (t : option (list MatchRecord)) (e : Event) (w : World) :
  faceApiReady (STATE w) = false ->
  dormant t w ->
  faceApiReady (STATE (step e w)) = true \/
  (faceApiReady (STATE (step e w)) = false /\ dormant t (step e w)).
Proof.
  intros Hr Hd. pose proof Hd as (Hs & Hiv & Hp & Hi & Hc & Ht).
  destruct e as [env msg|env|env id|env i o|env i]; simpl.
  - right. destruct msg; simpl; try (split; [exact Hr | exact Hd]).
    + destruct (startScanning_dormant env t w Hr Hd) as [H1 H2].
      destruct (startScanning env w) as [w1 [ok|]]; simpl in *;
        (split; [exact H1|]);
        eapply dormant_transfer; try exact H2; reflexivity.
    + unfold stopScanning. rewrite Hs. simpl. split; [exact Hr|].
      eapply dormant_transfer; try exact Hd; reflexivity.
    + destruct (storage_alive env); (split; [exact Hr|]); [|exact Hd].
      unfold dormant. simpl. repeat split; auto.
    + destruct (storage_alive env); (split; [exact Hr|]); [|exact Hd].
      eapply dormant_transfer; try exact Hd; reflexivity.
  - right. destruct (startScanning_dormant env t w Hr Hd) as [H1 H2].
    destruct (startScanning env w) as [w1 [ok|]]; simpl in *;
      (split; [exact H1|]);
      eapply dormant_transfer; try exact H2; reflexivity.
  - right. rewrite Hiv.
    rewrite bool_decide_eq_false_2 by apply not_elem_of_nil.
    split; [exact Hr | exact Hd].
  - destruct (pending_starts w !! i) as [fr|]; [|right; split; assumption].
    set (w1 := with_pending_starts _ w).
    destruct o;
      try (right; simpl; destruct (respond fr); simpl;
           (split; [exact Hr|]);
           eapply dormant_transfer; try exact Hd; reflexivity).
    left.
    change (script_settles ModelsLoaded w1)
      with (log LogFaceApiLoaded
              (with_STATE (set_faceApiReady true)
                 (with_model_loads (S (model_loads w1)) w1)), true).
    cbv beta iota zeta.
    set (w2 := log LogFaceApiLoaded _).
    pose proof (startScanning_after_inject_init_state env true w2) as Hinit.
    destruct (startScanning_after_inject env true w2) as [w3 ok].
    simpl in Hinit. unfold init_state in Hinit.
    injection Hinit as H3r _ _ _.
    destruct (respond fr); simpl; rewrite H3r; reflexivity.
  - right. rewrite Hi, lookup_nil. split; assumption.
Qed.

(** X23: until the classifier is ready nothing happens.  Start the event
    loop on any store [t]; if the readiness flag is still unset after a
    sequence of events, then the scanner is not scanning, no timer is
    armed, no scan pass was made, no pipeline is suspended, the classifier
    was never called, and the store is [t] or was emptied by a
    [CLEAR_LIST]. *)
Theorem nothing_happens_before_ready (t : option (list MatchRecord))
    (es : list Event) :
  faceApiReady (STATE (run es (with_tt_matches t initial_World))) = false ->
  dormant t (run es (with_tt_matches t initial_World)).
Proof.
  assert (H : forall es w, faceApiReady (STATE w) = false -> dormant t w ->
                faceApiReady (STATE (run es w)) = false ->
                dormant t (run es w)).
  { clear es. induction es as [|e es IH]; intros w Hr Hd Hend; simpl in *;
      [exact Hd|].
    destruct (step_dormant t e w Hr Hd) as [Hready|[Hr' Hd']].
    - destruct (run_ready es (step e w) Hready) as [Hcontra _].
      unfold run in *. simpl in *. congruence.
    - now apply IH. }
  apply H; [reflexivity|].
  unfold dormant. simpl. repeat split; auto.
Qed.

Lemma nothing_happens_before_ready_witness :
  let es := [AutoStartFires sample_env;
             MessageArrives sample_env START_SCAN;
             ScriptSettles sample_env 0 ScriptFailsToLoad;
             ScriptSettles sample_env 0 DetectorModelFails;
             IntervalFires sample_env 1;
             MessageArrives sample_env GET_STATUS] in
  length (responses (run es initial_World)) = 2%nat /\
  dormant None (run es initial_World).
Proof.
  intros es. split; [reflexivity|].
  apply (nothing_happens_before_ready None es). reflexivity.
Defined.
